(** * GTR (Go Tiny Router): a shallow embedding of [pkg/gtr.go]

    The development follows the Go source function by function:
    [ParseRoute], [RouteCompare], [CreateHash], [Register], [Find] and
    [GetConfig].  Go maps are finite maps ([gmap]); Go's [int] is [Z]
    (every integer the router computes is a map length, a slice index or
    a rank bounded by twice a map length, so 64-bit arithmetic never
    wraps); Go strings are byte strings ([string] of [ascii]). *)

From Stdlib Require Import ZArith List Ascii String Sorting.Permutation Lia.
From stdpp Require Import base decidable option list sorting fin_maps gmap strings.

Local Open Scope string_scope.
Local Open Scope Z_scope.

(** ** The pieces of Go's [strings] package that the router calls *)

Module strings.

(** [strings.Split(s, sep)] for a one-byte separator: a string with n
    separators has n+1 pieces, the empty string has the single piece
    [""].  A split is never empty ([Split_not_nil] below), so the last
    branch is never taken. *)
Fixpoint Split (s : string) (sep : ascii) : list string :=
  match s with
  | EmptyString => [EmptyString]
  | String c rest =>
      if decide (c = sep) then EmptyString :: Split rest sep
      else match Split rest sep with
           | piece :: more => String c piece :: more
           | [] => [String c EmptyString]
           end
  end.

(** [strings.HasPrefix(s, prefix)] *)
Definition HasPrefix (s prefix : string) : bool := String.prefix prefix s.

(** [strings.Join(elems, sep)] *)
Fixpoint Join (elems : list string) (sep : string) : string :=
  match elems with
  | [] => ""
  | [e] => e
  | e :: rest => e ++ sep ++ Join rest sep
  end.

End strings.

(** Go's [len] of a string, a slice or a map, as an [int]. *)
Definition len_string (s : string) : Z := Z.of_nat (String.length s).
Definition len_map `{Countable K} {V} (m : gmap K V) : Z := Z.of_nat (size m).

(** ** Routes *)

Record Route := mkRoute {
  host        : string;
  routeParams : gmap Z string;
  queryParams : gmap string string;
  hash        : string
}.

(** The first loop of [ParseRoute]: [index] is the index in the raw split,
    empty pieces are skipped, a piece that starts with a colon is stored as
    the sentinel. *)
Definition storeSegment (routeParams : gmap Z string) (index : Z) (segment : string)
  : gmap Z string :=
  if decide (len_string segment = 0) then routeParams
  else if strings.HasPrefix segment ":" then <[index := "?"]> routeParams
  else <[index := segment]> routeParams.

Fixpoint segmentsFrom (index : Z) (pieces : list string) (routeParams : gmap Z string)
  : gmap Z string :=
  match pieces with
  | [] => routeParams
  | segment :: rest => segmentsFrom (index + 1) rest (storeSegment routeParams index segment)
  end.

Definition parseSegments (path : string) : gmap Z string :=
  segmentsFrom 0 (strings.Split path "/") ∅.

(** ** RouteCompare *)

(** The first loop of [RouteCompare], over the entries of the template's
    [routeParams] in the order [entries] in which the runtime happens to
    enumerate them.  A lookup of an absent key in [route] yields Go's zero
    value, the empty string.  The result is the value of [rank] when the
    loop is left. *)
Fixpoint rankLoop (entries : list (Z * string)) (route : gmap Z string) (rank : Z) : Z :=
  match entries with
  | [] => rank
  | (key, value) :: rest =>
      if decide (value = "?") then rankLoop rest route (rank + 1)
      else if decide (value ≠ default "" (route !! key)) then 0
      else rankLoop rest route (rank + 2)
  end.

(** The second loop: [false] when it executes one of its [return 0]. *)
Fixpoint queryLoop (entries : list (string * string)) (route : gmap string string) : bool :=
  match entries with
  | [] => true
  | (key, value) :: rest =>
      match route !! key with
      | None => false
      | Some val => if decide (val ≠ value) then false else queryLoop rest route
      end
  end.

(** [RouteCompare] for given enumeration orders of the two template maps. *)
Definition RouteCompareIn (segOrder : list (Z * string)) (qryOrder : list (string * string))
    (preferredRoute route : Route) : Z :=
  if decide (len_map (routeParams preferredRoute) ≠ len_map (routeParams route)) then 0
  else
    let rank := rankLoop segOrder (routeParams route) 0 in
    if queryLoop qryOrder (queryParams route) then rank else 0.

Definition RouteCompare (preferredRoute route : Route) : Z :=
  RouteCompareIn (map_to_list (routeParams preferredRoute))
                 (map_to_list (queryParams preferredRoute))
                 preferredRoute route.

(** ** [sort.Slice] with the comparison of [ParseRoute] *)

(** Go compares strings byte by byte; [a > b] is [String.compare a b = Gt]. *)
Definition string_gt (a b : string) : bool :=
  match String.compare a b with Gt => true | _ => false end.

(** [sort.Slice(value, func(i, j) { return value[i] > value[j] })]: the
    slice ends up in descending order.  The model is an insertion sort;
    [sortDescending_unique] below shows that every descending arrangement
    of the same values is this one, so the algorithm of the library does
    not matter. *)
Fixpoint insertDescending (x : string) (l : list string) : list string :=
  match l with
  | [] => [x]
  | y :: rest => if string_gt y x then y :: insertDescending x rest else x :: l
  end.

Fixpoint sortDescending (l : list string) : list string :=
  match l with
  | [] => []
  | x :: rest => insertDescending x (sortDescending rest)
  end.

(** ** The pieces of Go's [net/url] package that the router calls *)

Module url.

(** The fields of [url.URL] that the router reads. *)
Record URL := mkURL {
  Host     : string;
  Path     : string;
  RawQuery : string
}.

Definition ishex (c : ascii) : bool :=
  let n := N_of_ascii c in
  ((48 <=? n) && (n <=? 57) || (97 <=? n) && (n <=? 102) || (65 <=? n) && (n <=? 70))%N.

Definition unhex (c : ascii) : N :=
  let n := N_of_ascii c in
  if ((48 <=? n) && (n <=? 57))%N then n - 48
  else if ((97 <=? n) && (n <=? 102))%N then n - 97 + 10
  else if ((65 <=? n) && (n <=? 70))%N then n - 65 + 10
  else 0%N.

(** [url.QueryUnescape]: [%XY] becomes the byte XY, [+] becomes a space;
    [None] is the [EscapeError] for a percent sign that is not followed
    by two hexadecimal digits. *)
Fixpoint QueryUnescape (s : string) : option string :=
  match s with
  | EmptyString => Some EmptyString
  | String "%" (String h (String l rest)) =>
      if ishex h && ishex l
      then String (ascii_of_N (unhex h * 16 + unhex l)) <$> QueryUnescape rest
      else None
  | String "%" _ => None
  | String "+" rest => String " " <$> QueryUnescape rest
  | String c rest => String c <$> QueryUnescape rest
  end.

(** [strings.Contains(s, ";")] *)
Fixpoint hasSemicolon (s : string) : bool :=
  match s with
  | EmptyString => false
  | String c rest => if decide (c = ";"%char) then true else hasSemicolon rest
  end.

(** [strings.Cut(s, "=")]: the text before and after the first [=]. *)
Fixpoint cutEq (s : string) : string * string :=
  match s with
  | EmptyString => (EmptyString, EmptyString)
  | String c rest =>
      if decide (c = "="%char) then (EmptyString, rest)
      else let '(k, v) := cutEq rest in (String c k, v)
  end.

(** The key and the value of the text between two ampersands, as the
    loop of [parseQuery] reads them; [None] where the loop goes on to the
    next pair: a pair with a semicolon, an empty pair, a key or a value
    that does not unescape. *)
Definition decodePair (pair : string) : option (string * string) :=
  if hasSemicolon pair then None
  else if decide (pair = "") then None
  else
    let '(key, value) := cutEq pair in
    match QueryUnescape key with
    | None => None
    | Some key =>
        match QueryUnescape value with
        | None => None
        | Some value => Some (key, value)
        end
    end.

(** One round of that loop: [m[key] = append(m[key], value)]. *)
Definition addPair (m : gmap string (list string)) (pair : string)
  : gmap string (list string) :=
  match decodePair pair with
  | None => m
  | Some (key, value) => <[key := (default [] (m !! key) ++ [value])%list]> m
  end.

(** [u.Query()]: [ParseQuery(u.RawQuery)] with its error dropped. *)
Definition Query (u : URL) : gmap string (list string) :=
  fold_left addPair (strings.Split (RawQuery u) "&") ∅.

End url.

(** The second loop of [ParseRoute], one round per key of [url.Query()] in
    the enumeration order [entries]. *)
Definition storeQuery (queryParams : gmap string string) (entry : string * list string)
  : gmap string string :=
  <[entry.1 := strings.Join (sortDescending entry.2) ","]> queryParams.

Definition parseQuery (u : url.URL) : gmap string string :=
  fold_left storeQuery (map_to_list (url.Query u)) ∅.

(** ** [crypto/sha256] and [encoding/hex] *)

Module sha256.

(** SHA-256 as in FIPS 180-4, on 32-bit words held in [Z]. *)
Definition mask32 : Z := 0xFFFFFFFF.
Definition add32 (x y : Z) : Z := Z.land (x + y) mask32.
Definition rotr (n x : Z) : Z :=
  Z.lor (Z.shiftr x n) (Z.land (Z.shiftl x (32 - n)) mask32).

Definition Ch (x y z : Z) : Z :=
  Z.lxor (Z.land x y) (Z.land (Z.lxor x mask32) z).
Definition Maj (x y z : Z) : Z :=
  Z.lxor (Z.lxor (Z.land x y) (Z.land x z)) (Z.land y z).
Definition Sigma0 (x : Z) : Z := Z.lxor (Z.lxor (rotr 2 x) (rotr 13 x)) (rotr 22 x).
Definition Sigma1 (x : Z) : Z := Z.lxor (Z.lxor (rotr 6 x) (rotr 11 x)) (rotr 25 x).
Definition sigma0 (x : Z) : Z := Z.lxor (Z.lxor (rotr 7 x) (rotr 18 x)) (Z.shiftr x 3).
Definition sigma1 (x : Z) : Z := Z.lxor (Z.lxor (rotr 17 x) (rotr 19 x)) (Z.shiftr x 10).

(** The first 64 primes. *)
Definition primes : list Z :=
  [ 2; 3; 5; 7; 11; 13; 17; 19; 23; 29; 31; 37; 41; 43; 47; 53;
    59; 61; 67; 71; 73; 79; 83; 89; 97; 101; 103; 107; 109; 113; 127; 131;
    137; 139; 149; 151; 157; 163; 167; 173; 179; 181; 191; 193; 197; 199; 211; 223;
    227; 229; 233; 239; 241; 251; 257; 263; 269; 271; 277; 281; 283; 293; 307; 311 ].

(** The integer cube root of a number below 2^105, one bit at a time. *)
Definition cbrtBit (n : Z) (r : Z) (b : nat) : Z :=
  let r' := Z.lor r (Z.shiftl 1 (Z.of_nat b)) in
  if decide (r' * r' * r' ≤ n) then r' else r.

Definition cbrt (n : Z) : Z := fold_left (cbrtBit n) (rev (seq 0 35)) 0.

(** The round constants: the first 32 bits of the fractional parts of the
    cube roots of the first 64 primes. *)
Definition K : list Z :=
  Eval vm_compute in (fun p => Z.land (cbrt (p * 2 ^ 96)) mask32) <$> primes.

(** The initial hash value: the first 32 bits of the fractional parts of
    the square roots of the first 8 primes. *)
Definition H0 : list Z :=
  Eval vm_compute in (fun p => Z.land (Z.sqrt (p * 2 ^ 64)) mask32) <$> take 8 primes.

(** Big-endian bytes of a number, [n] of them. *)
Fixpoint bytesBE (n : nat) (x : Z) : list Z :=
  match n with
  | O => []
  | S k => (bytesBE k (Z.shiftr x 8) ++ [Z.land x 0xFF])%list
  end.

Definition wordBE (bs : list Z) : Z :=
  fold_left (fun acc b => Z.lor (Z.shiftl acc 8) b) bs 0.

(** The message followed by the bit 1, zero bits up to 56 modulo 64
    bytes, and the length in bits on 8 bytes. *)
Definition pad (msg : list Z) : list Z :=
  let l := Z.of_nat (length msg) in
  (msg ++ [0x80] ++ repeat 0 (Z.to_nat ((55 - l) mod 64)) ++ bytesBE 8 (8 * l))%list.

Fixpoint chunks (fuel : nat) (size : nat) (bs : list Z) : list (list Z) :=
  match fuel, bs with
  | O, _ | _, [] => []
  | S k, _ => take size bs :: chunks k size (drop size bs)
  end.

Definition at_ (ws : list Z) (i : nat) : Z := nth i ws 0.

(** The message schedule: 16 words of the block, then 48 derived ones. *)
Fixpoint schedule (n : nat) (ws : list Z) : list Z :=
  match n with
  | O => ws
  | S k =>
      let t := length ws in
      let wt := add32 (add32 (add32 (sigma1 (at_ ws (t - 2))) (at_ ws (t - 7)))
                             (sigma0 (at_ ws (t - 15)))) (at_ ws (t - 16)) in
      schedule k (ws ++ [wt])%list
  end.

Definition round (st : list Z) (kw : Z * Z) : list Z :=
  match st with
  | [a; b; c; d; e; f; g; h] =>
      let t1 := add32 (add32 (add32 (add32 h (Sigma1 e)) (Ch e f g)) kw.1) kw.2 in
      let t2 := add32 (Sigma0 a) (Maj a b c) in
      [add32 t1 t2; a; b; c; add32 d t1; e; f; g]
  | _ => st
  end.

Definition block (hs : list Z) (blk : list Z) : list Z :=
  let ws := schedule 48 (wordBE <$> chunks 16 4 blk) in
  zip_with add32 hs (fold_left round (zip K ws) hs).

(** The 32 bytes of the digest. *)
Definition Sum256 (msg : list Z) : list Z :=
  let p := pad msg in
  fold_left block (chunks (length p) 64 p) H0 ≫= bytesBE 4.

End sha256.

Module hex.

Definition hextable : string := "0123456789abcdef".

Definition digit (n : Z) : ascii :=
  match String.get (Z.to_nat n) hextable with Some c => c | None => "0"%char end.

(** [hex.EncodeToString]: two lower-case digits per byte. *)
Fixpoint EncodeToString (src : list Z) : string :=
  match src with
  | [] => ""
  | b :: rest => String (digit (Z.shiftr b 4)) (String (digit (Z.land b 0x0F)) (EncodeToString rest))
  end.

End hex.

(** The bytes of a Go string. *)
Fixpoint bytesOf (s : string) : list Z :=
  match s with
  | EmptyString => []
  | String c rest => Z.of_N (N_of_ascii c) :: bytesOf rest
  end.

(** ** CreateHash *)

Definition CreateHash (u : url.URL) : string :=
  let buffer := url.Path u in
  let buffer :=
    if decide (len_string (url.RawQuery u) > 0) then buffer ++ "?" ++ url.RawQuery u
    else buffer in
  hex.EncodeToString (sha256.Sum256 (bytesOf buffer)).

(** ** ParseRoute *)

Definition ParseRoute (u : url.URL) : Route :=
  {| host := url.Host u;
     routeParams := parseSegments (url.Path u);
     queryParams := parseQuery u;
     hash := CreateHash u |}.

(** ** The route table *)

(** Sentinel errors. *)
Definition RouterError : Type := string.
Definition HOST_NOT_REGISTERED : RouterError := "host not registered".
Definition NO_MATCH_FOUND : RouterError := "no match found".
Definition NO_URL_REGISTERED : RouterError := "no url registered".

Section RouteTable.

(** The configuration attached to a route is opaque to the router. *)
Context {Conf : Type}.

Record RouteTable := mkRouteTable {
  routes  : gmap Z (list Route);
  configs : gmap string Conf
}.

(** The table that [DefaultRouteTable] creates on its first call; it is the
    only table the package hands out, and its two maps are never nil. *)
Definition DefaultRouteTable : RouteTable :=
  {| routes := ∅; configs := ∅ |}.

(** [Register] writes through the two maps of the table, which the
    receiver shares with its caller: the result is the table afterwards. *)
Definition Register (rt : RouteTable) (u : url.URL) (conf : Conf) : RouteTable :=
  let route := ParseRoute u in
  let len := len_map (routeParams route) in
  match configs rt !! hash route with
  | Some _ => rt
  | None =>
      let configs1 := <[hash route := conf]> (configs rt) in
      let routes1 :=
        match routes rt !! len with
        | Some _ => routes rt
        | None => <[len := []]> (routes rt)
        end in
      let routes2 := <[len := (default [] (routes1 !! len) ++ [route])%list]> routes1 in
      {| routes := routes2; configs := configs1 |}
  end.

(** One round of the loop of [Find]; the state is [(lrnk, lrt)], with
    [None] for the nil pointer. *)
Definition findStep (prt : Route) (st : Z * option Route) (url : Route)
  : Z * option Route :=
  let rnk := RouteCompare url prt in
  if decide (rnk ≠ 0) then
    if decide (rnk > st.1) then (rnk, Some url) else st
  else st.

(** [Find] returns a hash and an error ([None] for nil); the outer
    [None] stands for the panic of [lrt.hash] on a nil [lrt]. *)
Definition Find (rt : RouteTable) (u : url.URL) : option (string * option RouterError) :=
  if decide (len_map (routes rt) = 0) then Some ("", Some NO_URL_REGISTERED)
  else
    let prt := ParseRoute u in
    match routes rt !! len_map (routeParams prt) with
    | None => Some ("", Some HOST_NOT_REGISTERED)
    | Some bucket =>
        let '(lrnk, lrt) := fold_left (findStep prt) bucket (0, None) in
        if decide (lrnk = 0) then Some ("", Some NO_MATCH_FOUND)
        else match lrt with
             | Some r => Some (hash r, None)
             | None => None
             end
    end.

Definition GetConfig (rt : RouteTable) (hash : string) : option Conf :=
  configs rt !! hash.

End RouteTable.

Arguments RouteTable : clear implicits.

(** [C] with its query map replaced; [RouteCompare] reads neither the host
    nor the hash of a route. *)
Definition withQuery (C : Route) (q : gmap string string) : Route :=
  {| host := host C; routeParams := routeParams C; queryParams := q; hash := hash C |}.

(** The URLs of the package's tests, as [url.Parse] returns them. *)
Definition PrepareURLTemplate : url.URL :=
  url.mkURL "www.abcdefg.com" "/api/v1/users/:username/details" "type=cache".

Definition PrepareURL : url.URL :=
  url.mkURL "www.abcdefg.com" "/api/v1/users/ken/details" "type=cache".

(** A URL that has only a path and a raw query. *)
Definition pathQuery (path rawQuery : string) : url.URL := url.mkURL "" path rawQuery.

(** What a slot adds to the rank, and the total over the entries of a
    template. *)
Definition slotWeight (value : string) : Z := if decide (value = "?") then 1 else 2.

Definition pathWeight (entries : list (Z * string)) : Z :=
  foldr (fun kv acc => slotWeight kv.2 + acc) 0 entries.

(** A slot of the template lets the loop go on: it is a parameter, or a
    literal equal to what the lookup in the candidate yields. *)
Definition slotOk (route : gmap Z string) (kv : Z * string) : Prop :=
  kv.2 = "?" ∨ kv.2 = default "" (route !! kv.1).

(** The numbers of parameter slots and of literal slots of a template. *)
Definition sentinelSlots (template : gmap Z string) : Z :=
  Z.of_nat (length (filter (fun kv : Z * string => kv.2 = "?") (map_to_list template))).

Definition literalSlots (template : gmap Z string) : Z :=
  Z.of_nat (length (filter (fun kv : Z * string => kv.2 ≠ "?") (map_to_list template))).

(** What [ParseRoute] stores for a piece of the split path, if anything. *)
Definition storedSegment (segment : string) : option string :=
  if decide (segment = "") then None
  else if strings.HasPrefix segment ":" then Some "?"
  else Some segment.

(** The normalized value of a query key. *)
Definition normalize (values : list string) : string :=
  strings.Join (sortDescending values) ",".

(** The values that the pairs [pairs] of a raw query give to [key], in
    their order. *)
Definition valuesOf (key : string) (pairs : list string) : list string :=
  omap (fun pair =>
          match url.decodePair pair with
          | Some (k, v) => if decide (k = key) then Some v else None
          | None => None
          end) pairs.

(** Descending order on strings. *)
Definition string_ge (a b : string) : Prop := String.le b a.

(** The table after a sequence of registrations, from the table of
    [DefaultRouteTable]. *)
Definition registerAll {Conf : Type} (regs : list (url.URL * Conf)) : RouteTable Conf :=
  fold_left (fun rt reg => Register rt reg.1 reg.2) regs DefaultRouteTable.

(** A piece of a template path against the piece of a candidate path at
    the same index: a parameter takes any piece that is not empty, any
    other piece takes itself. *)
Definition pieceAccepts (template candidate : string) : Prop :=
  if strings.HasPrefix template ":" then candidate ≠ "" else template = candidate.

(** The configuration of the first registration in [regs] whose URL has
    the hash [h]. *)
Fixpoint firstRegistered {Conf : Type} (h : string) (regs : list (url.URL * Conf))
  : option Conf :=
  match regs with
  | [] => None
  | reg :: rest => if decide (CreateHash reg.1 = h) then Some reg.2 else firstRegistered h rest
  end.

(** The shape of the buckets of a table built from the registrations
    [regs]: no bucket is empty, the routes of a bucket have different
    hashes, and each route has the segment count of its bucket, a
    configuration under its hash, and a registration it comes from. *)
Definition registeredBy {Conf : Type} (regs : list (url.URL * Conf)) (rt : RouteTable Conf)
  : Prop :=
  ∀ n bucket, routes rt !! n = Some bucket →
    bucket ≠ []
    ∧ NoDup (hash <$> bucket)
    ∧ ∀ r, r ∈ bucket →
        len_map (routeParams r) = n
        ∧ is_Some (configs rt !! hash r)
        ∧ ∃ reg, reg ∈ regs ∧ r = ParseRoute reg.1.

(** A byte, and a lower-case hexadecimal digit. *)
Definition isByte (b : Z) : Prop := 0 ≤ b < 256.

Definition isLowerHex (c : ascii) : Prop := c ∈ list_ascii_of_string hex.hextable.

(** * Properties *)

(** ** The library models on known values *)

Example split_demo : strings.Split "/a//b" "/" = [""; "a"; ""; "b"].
Proof. reflexivity. Qed.

Lemma Split_not_nil (s : string) (sep : ascii) : strings.Split s sep ≠ [].
Proof.
  destruct s as [|c rest]; simpl; [done|].
  case_decide; [done|]. by destruct (strings.Split rest sep).
Qed.

Example query_demo :
  parseQuery (url.mkURL "h" "/p" "tag=b&tag=a&x=%41+1&bad=%zz&;=1")
  = {[ "tag" := "b,a"; "x" := "A 1" ]}.
Proof. vm_compute. reflexivity. Qed.

Example sha256_empty :
  hex.EncodeToString (sha256.Sum256 (bytesOf ""))
  = "e3b0c44298fc1c149afbf4c8996fb92427ae41e4649b934ca495991b7852b855".
Proof. vm_compute. reflexivity. Qed.

Example sha256_abc :
  hex.EncodeToString (sha256.Sum256 (bytesOf "abc"))
  = "ba7816bf8f01cfea414140de5dae2223b00361a396177a9cb410ff61f20015ad".
Proof. vm_compute. reflexivity. Qed.

Example sha256_two_blocks :
  hex.EncodeToString
    (sha256.Sum256 (bytesOf "abcdbcdecdefdefgefghfghighijhijkijkljklmklmnlmnomnopnopq"))
  = "248d6a61d20638b8e5c026930c3e6039a33ce45964ff2167f6ecedd419db06c1".
Proof. vm_compute. reflexivity. Qed.

Example test_ParseRoute :
  len_map (routeParams (ParseRoute PrepareURLTemplate)) = 5
  ∧ len_map (queryParams (ParseRoute PrepareURLTemplate)) = 1.
Proof. vm_compute. done. Qed.

Example test_RouteCompare :
  RouteCompare (ParseRoute PrepareURLTemplate) (ParseRoute PrepareURL) = 9.
Proof. vm_compute. reflexivity. Qed.


(** ** The two loops of [RouteCompare] *)

Lemma slotWeight_pos value : 0 < slotWeight value.
Proof. unfold slotWeight. case_decide; lia. Qed.

Lemma pathWeight_nonneg entries : 0 ≤ pathWeight entries.
Proof.
  induction entries as [|kv rest IH]; simpl; [lia|].
  pose proof (slotWeight_pos kv.2). lia.
Qed.

Lemma pathWeight_pos entries : entries ≠ [] → 0 < pathWeight entries.
Proof.
  destruct entries as [|kv rest]; [done|]. intros _. simpl.
  pose proof (slotWeight_pos kv.2). pose proof (pathWeight_nonneg rest). lia.
Qed.

Lemma pathWeight_perm entries entries' :
  entries ≡ₚ entries' → pathWeight entries = pathWeight entries'.
Proof. induction 1; simpl; lia. Qed.

Lemma rankLoop_ok entries route rank :
  Forall (slotOk route) entries →
  rankLoop entries route rank = rank + pathWeight entries.
Proof.
  intros Hall. revert rank.
  induction Hall as [|[key value] rest Hok _ IH]; intros rank; simpl.
  - lia.
  - unfold slotWeight. destruct Hok as [Hq|Hlit]; simpl in *.
    + rewrite !decide_True by done. rewrite IH. lia.
    + destruct (decide (value = "?")); [rewrite IH; lia|].
      rewrite decide_False by (intros Hne; done). rewrite IH. lia.
Qed.

Lemma rankLoop_bad entries route rank key value :
  (key, value) ∈ entries → value ≠ "?" → value ≠ default "" (route !! key) →
  rankLoop entries route rank = 0.
Proof.
  intros Hin Hlit Hne. revert rank.
  induction entries as [|[k v] rest IH]; intros rank; [by apply elem_of_nil in Hin|].
  apply elem_of_cons in Hin. simpl. destruct Hin as [Heq|Hin].
  - inversion Heq; subst k v.
    rewrite decide_False by done. by rewrite decide_True.
  - destruct (decide (v = "?")); [by apply IH|].
    destruct (decide (v ≠ default "" (route !! k))); [done|by apply IH].
Qed.

Lemma rankLoop_cases entries route rank :
  (Forall (slotOk route) entries ∧ rankLoop entries route rank = rank + pathWeight entries)
  ∨ (∃ key value, (key, value) ∈ entries ∧ value ≠ "?"
        ∧ value ≠ default "" (route !! key) ∧ rankLoop entries route rank = 0).
Proof.
  destruct (decide (Forall (slotOk route) entries)) as [Hall|Hnot].
  - left. split; [done|]. by apply rankLoop_ok.
  - right. apply not_Forall_Exists in Hnot; [|intros kv; unfold slotOk; apply _].
    apply Exists_exists in Hnot as [[key value] [Hin Hbad]].
    unfold slotOk in Hbad. simpl in Hbad.
    exists key, value. split_and!; [done|naive_solver|naive_solver|].
    apply rankLoop_bad with key value; naive_solver.
Qed.

Lemma rankLoop_perm entries entries' route rank :
  entries ≡ₚ entries' → rankLoop entries route rank = rankLoop entries' route rank.
Proof.
  intros Hp.
  destruct (rankLoop_cases entries route rank) as [[Hall ->]|(k & v & Hin & ? & ? & ->)].
  - rewrite rankLoop_ok by (by rewrite <- Hp). by rewrite (pathWeight_perm _ _ Hp).
  - symmetry. apply rankLoop_bad with k v; [by rewrite <- Hp|done..].
Qed.

Lemma queryLoop_true entries route :
  queryLoop entries route = true ↔
  Forall (fun kv => route !! kv.1 = Some kv.2) entries.
Proof.
  induction entries as [|[key value] rest IH]; simpl.
  - split; [constructor|done].
  - rewrite Forall_cons. simpl. destruct (route !! key) as [val|] eqn:Hlook.
    + destruct (decide (val ≠ value)) as [Hne|Heq].
      * split; [done|]. intros [Hv _]. congruence.
      * apply dec_stable in Heq. subst val. rewrite IH. tauto.
    + split; [done|]. intros [Hv _]. done.
Qed.

Lemma queryLoop_perm entries entries' route :
  entries ≡ₚ entries' → queryLoop entries route = queryLoop entries' route.
Proof.
  intros Hp. apply eq_true_iff_eq. rewrite !queryLoop_true. by rewrite Hp.
Qed.

(** The order in which the runtime enumerates the two maps of the template
    does not change the result of [RouteCompare]. *)
Lemma RouteCompareIn_order segOrder qryOrder preferredRoute route :
  segOrder ≡ₚ map_to_list (routeParams preferredRoute) →
  qryOrder ≡ₚ map_to_list (queryParams preferredRoute) →
  RouteCompareIn segOrder qryOrder preferredRoute route
  = RouteCompare preferredRoute route.
Proof.
  intros Hs Hq. unfold RouteCompare, RouteCompareIn.
  by rewrite (rankLoop_perm _ _ _ _ Hs), (queryLoop_perm _ _ _ Hq).
Qed.

Lemma queryLoop_subseteq (template route : gmap string string) :
  queryLoop (map_to_list template) route = true ↔ template ⊆ route.
Proof.
  rewrite queryLoop_true, Forall_forall, map_subseteq_spec. split.
  - intros Hall k v Hk. by apply (Hall (k, v)), elem_of_map_to_list.
  - intros Hsub [k v] Hin. by apply Hsub, elem_of_map_to_list.
Qed.

Lemma slotOk_map_to_list (template route : gmap Z string) :
  Forall (slotOk route) (map_to_list template) ↔
  ∀ key value, template !! key = Some value → value ≠ "?" →
               value = default "" (route !! key).
Proof.
  rewrite Forall_forall. unfold slotOk. split.
  - intros Hall k v Hk Hlit.
    destruct (Hall (k, v)) as [?|?]; [by apply elem_of_map_to_list|done..].
  - intros Hall [k v] Hin%elem_of_map_to_list. simpl.
    destruct (decide (v = "?")); [by left|right; by apply Hall].
Qed.

(** ** RouteCompare as a whole *)

Lemma RouteCompare_nonneg T C : 0 ≤ RouteCompare T C.
Proof.
  unfold RouteCompare, RouteCompareIn. case_decide; [lia|].
  destruct (queryLoop _ _); [|lia].
  destruct (rankLoop_cases (map_to_list (routeParams T)) (routeParams C) 0)
    as [[_ ->]|(? & ? & _ & _ & _ & ->)]; [|lia].
  pose proof (pathWeight_nonneg (map_to_list (routeParams T))). lia.
Qed.

Lemma pathWeight_bound entries : pathWeight entries ≤ 2 * Z.of_nat (length entries).
Proof.
  induction entries as [|kv rest IH]; simpl pathWeight; simpl length; [lia|].
  unfold slotWeight. case_decide; lia.
Qed.

(** The rank stays far below the range of a 64-bit [int]: it is at most
    twice the number of entries of the template's segment map. *)
Lemma RouteCompare_bound T C : RouteCompare T C ≤ 2 * len_map (routeParams T).
Proof.
  pose proof (pathWeight_bound (map_to_list (routeParams T))) as Hbound.
  rewrite length_map_to_list in Hbound.
  unfold RouteCompare, RouteCompareIn, len_map in *. case_decide; [lia|].
  destruct (queryLoop _ _); [|lia].
  destruct (rankLoop_cases (map_to_list (routeParams T)) (routeParams C) 0)
    as [[_ ->]|(? & ? & _ & _ & _ & ->)]; lia.
Qed.

Lemma RouteCompare_matched T C :
  len_map (routeParams T) = len_map (routeParams C) →
  (∀ key value, routeParams T !! key = Some value → value ≠ "?" →
                value = default "" (routeParams C !! key)) →
  queryParams T ⊆ queryParams C →
  RouteCompare T C = pathWeight (map_to_list (routeParams T)).
Proof.
  intros Hlen Hlit Hqry. unfold RouteCompare, RouteCompareIn.
  rewrite decide_False by (intros Hne; done).
  apply queryLoop_subseteq in Hqry. rewrite Hqry.
  rewrite rankLoop_ok by (by apply slotOk_map_to_list). lia.
Qed.

Lemma RouteCompare_nonzero T C :
  RouteCompare T C ≠ 0 →
  len_map (routeParams T) = len_map (routeParams C)
  ∧ (∀ key value, routeParams T !! key = Some value → value ≠ "?" →
                  value = default "" (routeParams C !! key))
  ∧ queryParams T ⊆ queryParams C
  ∧ RouteCompare T C = pathWeight (map_to_list (routeParams T)).
Proof.
  unfold RouteCompare, RouteCompareIn.
  destruct (decide (len_map (routeParams T) ≠ len_map (routeParams C))) as [|Hlen];
    [done|].
  apply dec_stable in Hlen.
  destruct (queryLoop _ _) eqn:Hqry; [|done]. apply queryLoop_subseteq in Hqry.
  destruct (rankLoop_cases (map_to_list (routeParams T)) (routeParams C) 0)
    as [[Hall ->]|(? & ? & _ & _ & _ & ->)]; [|done].
  intros _. pose proof (proj1 (slotOk_map_to_list _ _) Hall) as Hlit.
  split_and!; [done..|lia].
Qed.

Lemma RouteCompare_length_differs T C :
  len_map (routeParams T) ≠ len_map (routeParams C) → RouteCompare T C = 0.
Proof. intros Hne. unfold RouteCompare, RouteCompareIn. by rewrite decide_True. Qed.

Lemma RouteCompare_literal_differs T C key value :
  routeParams T !! key = Some value → value ≠ "?" →
  value ≠ default "" (routeParams C !! key) →
  RouteCompare T C = 0.
Proof.
  intros Hk Hlit Hne. unfold RouteCompare, RouteCompareIn. case_decide; [done|].
  rewrite (rankLoop_bad _ _ _ key value); [by destruct (queryLoop _ _)| |done..].
  by apply elem_of_map_to_list.
Qed.

Lemma RouteCompare_query_differs T C key value :
  queryParams T !! key = Some value → queryParams C !! key ≠ Some value →
  RouteCompare T C = 0.
Proof.
  intros Hk Hne. unfold RouteCompare, RouteCompareIn. case_decide; [done|].
  destruct (queryLoop _ _) eqn:Hqry; [|done].
  apply queryLoop_subseteq in Hqry. rewrite map_subseteq_spec in Hqry.
  by destruct Hne; apply Hqry.
Qed.

Lemma queryLoop_ext entries (route route' : gmap string string) :
  (∀ key value, (key, value) ∈ entries → route' !! key = route !! key) →
  queryLoop entries route' = queryLoop entries route.
Proof.
  intros Hsame. apply eq_true_iff_eq. rewrite !queryLoop_true, !Forall_forall.
  split; intros Hall [k v] Hin; simpl.
  - rewrite <- (Hsame k v Hin). by apply (Hall (k, v)).
  - rewrite (Hsame k v Hin). by apply (Hall (k, v)).
Qed.

Lemma rankLoop_ext entries (route route' : gmap Z string) rank :
  (∀ key value, (key, value) ∈ entries → value ≠ "?" →
                route' !! key = route !! key) →
  rankLoop entries route' rank = rankLoop entries route rank.
Proof.
  revert rank. induction entries as [|[k v] rest IH]; intros rank Hsame; [done|].
  simpl. destruct (decide (v = "?")) as [|Hlit].
  - apply IH. intros key value Hin. apply Hsame. by right.
  - rewrite (Hsame k v) by (done || by left).
    destruct (decide (v ≠ default "" (route !! k))); [done|].
    apply IH. intros key value Hin. apply Hsame. by right.
Qed.

(** Only the entries of the candidate's query map under the template's
    keys are read. *)
Lemma RouteCompare_query_ext T C q :
  (∀ key, is_Some (queryParams T !! key) → q !! key = queryParams C !! key) →
  RouteCompare T (withQuery C q) = RouteCompare T C.
Proof.
  intros Hsame. unfold RouteCompare, RouteCompareIn. simpl.
  rewrite (queryLoop_ext _ (queryParams C) q); [done|].
  intros key value Hin%elem_of_map_to_list. apply Hsame. by exists value.
Qed.

Lemma pathWeight_slots (entries : list (Z * string)) :
  pathWeight entries
  = Z.of_nat (length (filter (fun kv : Z * string => kv.2 = "?") entries))
    + 2 * Z.of_nat (length (filter (fun kv : Z * string => kv.2 ≠ "?") entries)).
Proof.
  induction entries as [|[k v] rest IH]; [done|].
  rewrite !filter_cons. simpl. unfold slotWeight.
  destruct (decide (v = "?")) as [Hq|Hlit].
  - rewrite decide_False by (intros Hne; done). simpl length. lia.
  - rewrite decide_True by done. simpl length. lia.
Qed.

(** ** The rules of the scorer *)

(** C1 (Rule 3, P3, P4): a key of the template's query map that the
    candidate lacks, or holds with another value, makes [RouteCompare]
    return 0 whatever the path; a key that only the candidate has can be
    added, changed or removed without changing the result; and when all
    the template's keys are matched the result is the one for a candidate
    that has exactly the template's query map.  A candidate that holds
    all the template's entries, with or without keys of its own, still
    matches: between routes of the same segment count the result is the
    rank that the segment loop leaves, and when the literals of the
    template match too it is positive, one per parameter slot and two per
    literal slot. *)
Theorem RouteCompare_query_rule (T C : Route) :
  (∀ key value, queryParams T !! key = Some value →
                queryParams C !! key ≠ Some value → RouteCompare T C = 0)
  ∧ (∀ extra value, queryParams T !! extra = None →
       RouteCompare T (withQuery C (<[extra := value]> (queryParams C)))
       = RouteCompare T C
       ∧ RouteCompare T (withQuery C (delete extra (queryParams C)))
         = RouteCompare T C)
  ∧ (queryParams T ⊆ queryParams C →
       RouteCompare T C = RouteCompare T (withQuery C (queryParams T)))
  ∧ (queryParams T ⊆ queryParams C →
     len_map (routeParams T) = len_map (routeParams C) →
     RouteCompare T C = rankLoop (map_to_list (routeParams T)) (routeParams C) 0)
  ∧ (queryParams T ⊆ queryParams C →
     len_map (routeParams T) = len_map (routeParams C) →
     (∀ pos value, routeParams T !! pos = Some value → value ≠ "?" →
                   value = default "" (routeParams C !! pos)) →
     routeParams T ≠ ∅ →
     0 < RouteCompare T C
     ∧ RouteCompare T C
       = sentinelSlots (routeParams T) + 2 * literalSlots (routeParams T)).
Proof.
  split_and!.
  - intros key value. apply RouteCompare_query_differs.
  - intros extra value Hnone. split; apply RouteCompare_query_ext; intros key Hsome.
    + apply lookup_insert_ne. intros <-. rewrite Hnone in Hsome. by destruct Hsome.
    + apply lookup_delete_ne. intros <-. rewrite Hnone in Hsome. by destruct Hsome.
  - intros Hsub. symmetry. apply RouteCompare_query_ext. intros key [value Hk].
    rewrite Hk. symmetry. revert Hk. by apply map_subseteq_spec.
  - intros Hsub Hlen. unfold RouteCompare, RouteCompareIn.
    rewrite decide_False by (intros Hne; done).
    apply queryLoop_subseteq in Hsub. by rewrite Hsub.
  - intros Hsub Hlen Hlit Hne. rewrite (RouteCompare_matched T C Hlen Hlit Hsub).
    split; [|apply pathWeight_slots].
    apply pathWeight_pos. by rewrite map_to_list_empty_iff.
Qed.

Lemma RouteCompare_query_rule_witness :
  RouteCompare (ParseRoute PrepareURLTemplate)
               (ParseRoute (pathQuery "/api/v1/users/ken/details" "format=JSON")) = 0
  ∧ RouteCompare (ParseRoute PrepareURLTemplate)
                 (withQuery (ParseRoute PrepareURL)
                    (<["format" := "JSON"]> (queryParams (ParseRoute PrepareURL))))
    = RouteCompare (ParseRoute PrepareURLTemplate) (ParseRoute PrepareURL)
  ∧ RouteCompare
      (ParseRoute (pathQuery "/api/v1/users/:username/details" "type=cached"))
      (ParseRoute (pathQuery "/api/v1/users/ken/details" "type=cached&format=JSON"))
    = 9
  ∧ 0 < RouteCompare
          (ParseRoute (pathQuery "/api/v1/users/:username/details" "type=cached"))
          (ParseRoute (pathQuery "/api/v1/users/ken/details" "type=cached&format=JSON")).
Proof.
  assert (queryParams (ParseRoute (pathQuery "/api/v1/users/:username/details" "type=cached"))
          ⊆ queryParams (ParseRoute (pathQuery "/api/v1/users/ken/details"
                                       "type=cached&format=JSON"))) as Hsub.
  { apply map_subseteq_spec. intros key value.
    replace (queryParams (ParseRoute (pathQuery "/api/v1/users/:username/details"
                                        "type=cached")))
      with ({[ "type" := "cached" ]} : gmap string string) by (vm_compute; reflexivity).
    intros [<- <-]%lookup_singleton_Some. vm_compute. reflexivity. }
  split_and!.
  - apply (proj1 (RouteCompare_query_rule _ _) "type" "cache"); vm_compute; congruence.
  - destruct (proj1 (proj2 (RouteCompare_query_rule (ParseRoute PrepareURLTemplate)
                              (ParseRoute PrepareURL))) "format" "JSON") as [Hins _].
    + vm_compute. reflexivity.
    + exact Hins.
  - refine (eq_trans
              (proj1 (proj2 (proj2 (proj2
                 (RouteCompare_query_rule
                    (ParseRoute (pathQuery "/api/v1/users/:username/details" "type=cached"))
                    (ParseRoute (pathQuery "/api/v1/users/ken/details"
                                   "type=cached&format=JSON"))))))
                 Hsub _) _).
    + vm_compute. reflexivity.
    + vm_compute. reflexivity.
  - refine (proj1 (proj2 (proj2 (proj2 (proj2
              (RouteCompare_query_rule
                 (ParseRoute (pathQuery "/api/v1/users/:username/details" "type=cached"))
                 (ParseRoute (pathQuery "/api/v1/users/ken/details"
                                "type=cached&format=JSON"))))))
              Hsub _ _ _)).
    + vm_compute. reflexivity.
    + intros pos value.
      replace (routeParams (ParseRoute (pathQuery "/api/v1/users/:username/details"
                                          "type=cached")))
        with ({[ 1 := "api"; 2 := "v1"; 3 := "users"; 4 := "?"; 5 := "details" ]}
               : gmap Z string) by (vm_compute; reflexivity).
      clear Hsub. intros Hlook Hlit.
      do 4 (apply lookup_insert_Some in Hlook as [[<- <-]|[_ Hlook]];
            [first [vm_compute; reflexivity|exfalso; apply Hlit; reflexivity]|]).
      apply lookup_singleton_Some in Hlook as [<- <-]. vm_compute. reflexivity.
    + vm_compute. discriminate.
Defined.

(** C2 (Rule 1, P1): templates and candidates whose segment maps differ in
    size score 0, whatever they hold. *)
Theorem RouteCompare_segment_count (T C : Route) :
  len_map (routeParams T) ≠ len_map (routeParams C) → RouteCompare T C = 0.
Proof. apply RouteCompare_length_differs. Qed.

Lemma RouteCompare_segment_count_witness :
  RouteCompare (ParseRoute PrepareURLTemplate)
               (ParseRoute (pathQuery "/api/v1/users/ken/details/extra" "type=cache")) = 0.
Proof. apply RouteCompare_segment_count. vm_compute. congruence. Defined.

(** C3 (Rule 2, P2): with equal segment counts, one literal of the
    template that differs from what the candidate has at that position (the
    empty string when it has nothing there) makes [RouteCompare] return 0,
    whatever the other segments and the query maps are. *)
Theorem RouteCompare_literal_mismatch (T C : Route) (pos : Z) (value : string) :
  len_map (routeParams T) = len_map (routeParams C) →
  routeParams T !! pos = Some value →
  value ≠ "?" →
  value ≠ default "" (routeParams C !! pos) →
  RouteCompare T C = 0.
Proof. intros _. apply RouteCompare_literal_differs. Qed.

Lemma RouteCompare_literal_mismatch_witness :
  RouteCompare (ParseRoute PrepareURLTemplate)
               (ParseRoute (pathQuery "/api/v2/users/ken/details" "type=cache")) = 0
  ∧ RouteCompare (ParseRoute (pathQuery "/a/b" ""))
                 (ParseRoute (pathQuery "/a//c" "")) = 0.
Proof.
  split.
  - apply (RouteCompare_literal_mismatch _ _ 2 "v1"); vm_compute; congruence.
  - apply (RouteCompare_literal_mismatch _ _ 2 "b"); vm_compute; congruence.
Defined.

Lemma pathWeight_insert (template : gmap Z string) pos old new :
  template !! pos = Some old →
  pathWeight (map_to_list (<[pos := new]> template))
  = pathWeight (map_to_list template) - slotWeight old + slotWeight new.
Proof.
  intros Hold.
  rewrite <- (pathWeight_perm _ _ (map_to_list_delete template pos old Hold)).
  rewrite <- (insert_delete_eq template).
  rewrite (pathWeight_perm _ _ (map_to_list_insert (delete pos template) pos new
                                   (lookup_delete_eq template pos))).
  simpl. lia.
Qed.

(** C4 (P5): a positive result is one per parameter slot plus two per
    literal slot of the template; hence of two templates that both match a
    candidate and differ only in one position, a literal in the one and a
    parameter in the other, the one with the literal scores higher (by
    one); a literal template of five segments scores 10 against itself, the
    same template with one parameter scores 9. *)
Theorem RouteCompare_specificity :
  (∀ T C : Route, 0 < RouteCompare T C →
     RouteCompare T C = sentinelSlots (routeParams T) + 2 * literalSlots (routeParams T))
  ∧ (∀ (Tlit Tpar C : Route) (pos : Z) (value : string),
       routeParams Tpar !! pos = Some "?" →
       value ≠ "?" →
       routeParams Tlit = <[pos := value]> (routeParams Tpar) →
       0 < RouteCompare Tlit C →
       0 < RouteCompare Tpar C →
       len_map (routeParams Tlit) = len_map (routeParams Tpar)
       ∧ default "" (routeParams C !! pos) = value
       ∧ RouteCompare Tlit C = RouteCompare Tpar C + 1
       ∧ RouteCompare Tpar C < RouteCompare Tlit C)
  ∧ RouteCompare (ParseRoute (pathQuery "/api/v1/users/ken/details" ""))
                 (ParseRoute (pathQuery "/api/v1/users/ken/details" "")) = 10
  ∧ RouteCompare (ParseRoute (pathQuery "/api/v1/users/:username/details" ""))
                 (ParseRoute (pathQuery "/api/v1/users/ken/details" "")) = 9.
Proof.
  split_and!.
  - intros T C Hpos.
    destruct (RouteCompare_nonzero T C) as (_ & _ & _ & ->); [lia|].
    apply pathWeight_slots.
  - intros Tlit Tpar C pos value Hpar Hlit Hmap Hl Hp.
    destruct (RouteCompare_nonzero Tlit C) as (_ & Hok & _ & Hrl); [lia|].
    destruct (RouteCompare_nonzero Tpar C) as (_ & _ & _ & Hrp); [lia|].
    assert (RouteCompare Tlit C = RouteCompare Tpar C + 1) as Hone.
    { rewrite Hrl, Hrp, Hmap, (pathWeight_insert _ pos "?" value Hpar).
      unfold slotWeight. rewrite decide_True by done. rewrite decide_False by done. lia. }
    split_and!; [| |done|lia].
    + unfold len_map. rewrite Hmap. f_equal.
      apply map_size_insert_Some. by exists "?".
    + symmetry. apply (Hok pos value); [|done]. by rewrite Hmap, lookup_insert_eq.
  - vm_compute. reflexivity.
  - vm_compute. reflexivity.
Qed.

Lemma RouteCompare_specificity_witness :
  RouteCompare (ParseRoute (pathQuery "/api/v1/users/:username/details" ""))
               (ParseRoute (pathQuery "/api/v1/users/ken/details" ""))
  < RouteCompare (ParseRoute (pathQuery "/api/v1/users/ken/details" ""))
                 (ParseRoute (pathQuery "/api/v1/users/ken/details" "")).
Proof.
  destruct (proj1 (proj2 RouteCompare_specificity)
              (ParseRoute (pathQuery "/api/v1/users/ken/details" ""))
              (ParseRoute (pathQuery "/api/v1/users/:username/details" ""))
              (ParseRoute (pathQuery "/api/v1/users/ken/details" ""))
              4 "ken") as (_ & _ & _ & Hlt).
  - vm_compute. reflexivity.
  - vm_compute. congruence.
  - vm_compute. reflexivity.
  - vm_compute. reflexivity.
  - vm_compute. reflexivity.
  - exact Hlt.
Defined.

(** Only the entries of the candidate's segment map under the template's
    literal positions are read, and its size. *)
Lemma RouteCompare_segment_ext T C C' :
  len_map (routeParams C') = len_map (routeParams C) →
  queryParams C' = queryParams C →
  (∀ pos value, routeParams T !! pos = Some value → value ≠ "?" →
                routeParams C' !! pos = routeParams C !! pos) →
  RouteCompare T C' = RouteCompare T C.
Proof.
  intros Hlen Hqry Hsame. unfold RouteCompare, RouteCompareIn.
  rewrite Hlen, Hqry.
  rewrite (rankLoop_ext _ (routeParams C) (routeParams C')); [done|].
  intros pos value Hin%elem_of_map_to_list. by apply Hsame.
Qed.

(** C10: at a parameter slot [RouteCompare] adds 1 and does not look the
    position up in the candidate: candidates of the same size and query
    map that agree at the template's literal positions score the same,
    wherever their other segments are; so the template of [/:a/:b]
    (positions 1 and 2) scores 2 against the candidate of [/x//y]
    (positions 1 and 3), which has nothing at position 2. *)
Theorem RouteCompare_parameter_unread :
  (∀ T C C' : Route,
     len_map (routeParams C') = len_map (routeParams C) →
     queryParams C' = queryParams C →
     (∀ pos value, routeParams T !! pos = Some value → value ≠ "?" →
                   routeParams C' !! pos = routeParams C !! pos) →
     RouteCompare T C' = RouteCompare T C)
  ∧ routeParams (ParseRoute (pathQuery "/:a/:b" "")) = {[ 1 := "?"; 2 := "?" ]}
  ∧ routeParams (ParseRoute (pathQuery "/x//y" "")) = {[ 1 := "x"; 3 := "y" ]}
  ∧ routeParams (ParseRoute (pathQuery "/x//y" "")) !! 2 = None
  ∧ RouteCompare (ParseRoute (pathQuery "/:a/:b" "")) (ParseRoute (pathQuery "/x//y" "")) = 2.
Proof.
  split_and!; [apply RouteCompare_segment_ext|vm_compute; reflexivity..].
Qed.

Lemma RouteCompare_parameter_unread_witness :
  RouteCompare (ParseRoute (pathQuery "/:a/:b" "")) (ParseRoute (pathQuery "/x//y" ""))
  = RouteCompare (ParseRoute (pathQuery "/:a/:b" "")) (ParseRoute (pathQuery "/x/y" "")).
Proof.
  apply (proj1 RouteCompare_parameter_unread).
  - vm_compute. reflexivity.
  - vm_compute. reflexivity.
  - intros pos value Hpos Hlit. exfalso. apply Hlit. revert Hpos.
    replace (routeParams (ParseRoute (pathQuery "/:a/:b" "")))
      with ({[ 1 := "?"; 2 := "?" ]} : gmap Z string) by (vm_compute; reflexivity).
    intros [[_ Hv]|[_ [_ Hv]%lookup_singleton_Some]]%lookup_insert_Some;
      by symmetry.
Defined.

(** ** The loop of [Find] *)

Section FindLoop.

Variable prt : Route.

Let score (t : Route) : Z := RouteCompare t prt.

Lemma findStep_fst st t :
  0 ≤ st.1 →
  (findStep prt st t).1 = if decide (st.1 < score t) then score t else st.1.
Proof.
  intros Hst. unfold findStep, score. pose proof (RouteCompare_nonneg t prt).
  repeat case_decide; simpl; try done; lia.
Qed.

(** Templates that do not beat the current best leave the state alone. *)
Lemma findLoop_stable bucket st :
  Forall (fun t => score t ≤ st.1) bucket →
  fold_left (findStep prt) bucket st = st.
Proof.
  induction 1 as [|t rest Ht _ IH]; [done|]. simpl.
  replace (findStep prt st t) with st; [done|].
  unfold findStep. fold (score t). repeat case_decide; try done; lia.
Qed.

(** The first template of the bucket that reaches the greatest score is
    the one the loop ends with. *)
Lemma findLoop_first_best bucket (i : nat) t st :
  bucket !! i = Some t →
  0 ≤ st.1 < score t →
  (∀ (j : nat) t', (j < i)%nat → bucket !! j = Some t' → score t' < score t) →
  Forall (fun t' => score t' ≤ score t) bucket →
  fold_left (findStep prt) bucket st = (score t, Some t).
Proof.
  revert i st. induction bucket as [|t0 rest IH]; intros i st Hi Hst Hbefore Hall;
    [done|].
  apply Forall_cons in Hall as [_ Hrest]. destruct i as [|i]; simpl in *.
  - inversion Hi; subst t0.
    replace (findStep prt st t) with (score t, Some t).
    + by apply findLoop_stable.
    + unfold findStep. fold (score t). repeat case_decide; try done; lia.
  - apply (IH i); [done| |intros j t' Hj; apply (Hbefore (S j)); lia|done].
    rewrite findStep_fst by lia. specialize (Hbefore 0%nat t0).
    case_decide; [|lia]. split; [lia|]. apply Hbefore; [lia|done].
Qed.

(** What the loop ends with, from the initial state. *)
Lemma findLoop_result bucket :
  (fold_left (findStep prt) bucket (0, None) = (0, None)
   ∧ Forall (fun t => score t = 0) bucket)
  ∨ (∃ t, fold_left (findStep prt) bucket (0, None) = (score t, Some t)
          ∧ t ∈ bucket ∧ 0 < score t
          ∧ Forall (fun t' => score t' ≤ score t) bucket).
Proof.
  induction bucket as [|t rest IH] using rev_ind; [left; by split|].
  rewrite fold_left_app. simpl. pose proof (RouteCompare_nonneg t prt) as Hnn.
  fold (score t) in Hnn.
  destruct IH as [[-> Hzero]|(b & -> & Hin & Hpos & Hmax)]; unfold findStep;
    fold (score t); simpl.
  - destruct (decide (score t ≠ 0)) as [Hne|Heq].
    + right. exists t. rewrite decide_True by lia. split_and!; [done| |lia|].
      * apply elem_of_app. right. by left.
      * apply Forall_app. split; [|by repeat constructor].
        eapply Forall_impl; [exact Hzero|]. simpl. intros; lia.
    + left. split; [done|]. apply dec_stable in Heq.
      apply Forall_app. split; [done|by repeat constructor].
  - destruct (decide (score t ≠ 0 ∧ score t > score b)) as [[Hne Hgt]|Hno].
    + right. exists t. rewrite decide_True by done. rewrite decide_True by done.
      split_and!; [done| |lia|].
      * apply elem_of_app. right. by left.
      * apply Forall_app. split; [|by repeat constructor].
        eapply Forall_impl; [exact Hmax|]. simpl. intros; lia.
    + right. exists b. split_and!; [|by apply elem_of_app; left|done|].
      * repeat case_decide; try done. by destruct Hno.
      * apply Forall_app. split; [done|]. repeat constructor.
        destruct (decide (score t = 0)); [lia|]. apply Z.nlt_ge. intros Hlt.
        apply Hno. split; [done|lia].
Qed.

End FindLoop.

(** ** Register and Find *)

Section TableFacts.

Context {Conf : Type}.
Implicit Types (rt : RouteTable Conf) (u : url.URL) (conf : Conf).

Lemma len_map_zero {V} (m : gmap Z V) : len_map m = 0 ↔ m = ∅.
Proof. unfold len_map. rewrite <- map_size_empty_iff. lia. Qed.

Lemma Register_duplicate rt u conf :
  is_Some (configs rt !! hash (ParseRoute u)) → Register rt u conf = rt.
Proof. intros [old Hold]. unfold Register. by rewrite Hold. Qed.

Lemma Register_fresh rt u conf :
  configs rt !! hash (ParseRoute u) = None →
  let route := ParseRoute u in
  let n := len_map (routeParams route) in
  configs (Register rt u conf) = <[hash route := conf]> (configs rt)
  ∧ routes (Register rt u conf)
    = <[n := (default [] (routes rt !! n) ++ [route])%list]> (routes rt).
Proof.
  intros Hnew route n. unfold Register. rewrite Hnew. fold route. fold n. simpl.
  split; [done|]. destruct (routes rt !! n) as [bucket|] eqn:Hb.
  - by rewrite Hb.
  - by rewrite lookup_insert_eq, insert_insert_eq.
Qed.

(** [Find] on a bucket, by what its loop ends with. *)
Lemma Find_bucket rt u bucket :
  routes rt !! len_map (routeParams (ParseRoute u)) = Some bucket →
  Find rt u =
    let st := fold_left (findStep (ParseRoute u)) bucket (0, None) in
    if decide (st.1 = 0) then Some ("", Some NO_MATCH_FOUND)
    else match st.2 with Some r => Some (hash r, None) | None => None end.
Proof.
  intros Hb. unfold Find. rewrite decide_False.
  - rewrite Hb. by destruct (fold_left _ _ _).
  - rewrite len_map_zero. intros Hempty. by rewrite Hempty, lookup_empty in Hb.
Qed.

End TableFacts.

(** C5: among the templates of the candidate's bucket that reach the
    greatest positive score, [Find] returns the hash of the first in the
    order of the bucket: a later one with an equal score does not replace
    it.  The order of a bucket is the order of registration: [Register]
    puts the new route behind those the bucket holds and leaves the other
    buckets alone. *)
Theorem Find_tie_break (Conf : Type) :
  (∀ (rt : RouteTable Conf) (u : url.URL) (bucket : list Route) (i : nat) (t : Route),
     routes rt !! len_map (routeParams (ParseRoute u)) = Some bucket →
     bucket !! i = Some t →
     0 < RouteCompare t (ParseRoute u) →
     (∀ (j : nat) t', bucket !! j = Some t' →
        RouteCompare t' (ParseRoute u) ≤ RouteCompare t (ParseRoute u)
        ∧ ((j < i)%nat → RouteCompare t' (ParseRoute u) < RouteCompare t (ParseRoute u))) →
     Find rt u = Some (hash t, None))
  ∧ (∀ (rt : RouteTable Conf) (u : url.URL) (conf : Conf) (n : Z),
       configs rt !! hash (ParseRoute u) = None →
       routes (Register rt u conf) !! n =
         if decide (n = len_map (routeParams (ParseRoute u)))
         then Some (default [] (routes rt !! n) ++ [ParseRoute u])%list
         else routes rt !! n).
Proof.
  split.
  - intros rt u bucket i t Hb Hi Hpos Hbest.
    rewrite (Find_bucket rt u bucket Hb).
    rewrite (findLoop_first_best (ParseRoute u) bucket i t (0, None)); simpl.
    + by rewrite decide_False by lia.
    + done.
    + lia.
    + intros j t' Hj Hj'. by apply (Hbest j t').
    + apply Forall_lookup. intros j t' Hj. by apply (Hbest j t').
  - intros rt u conf n Hnew.
    destruct (Register_fresh rt u conf Hnew) as [_ ->].
    case_decide as Hn.
    + subst n. by rewrite lookup_insert_eq.
    + by rewrite lookup_insert_ne.
Qed.

Lemma Find_tie_break_witness :
  Find (Register (Register DefaultRouteTable (pathQuery "/a/:x" "") 1%nat)
                 (pathQuery "/:y/b" "") 2%nat)
       (pathQuery "/a/b" "")
  = Some (hash (ParseRoute (pathQuery "/a/:x" "")), None).
Proof.
  apply (proj1 (Find_tie_break nat) _ _
           [ParseRoute (pathQuery "/a/:x" ""); ParseRoute (pathQuery "/:y/b" "")] 0%nat).
  - vm_compute. reflexivity.
  - reflexivity.
  - vm_compute. reflexivity.
  - intros [|[|j]] t' Ht'; simpl in Ht'; [| |done]; inversion Ht'; subst t'.
    + split; [vm_compute; congruence|lia].
    + split; [vm_compute; congruence|lia].
Defined.

(** C6: [Find] fails in three ways, with three different error values,
    tested in this order: the routes map is empty (for every URL); there
    is no bucket for the candidate's segment count; every template of the
    bucket scores 0.  In every other case it returns, with no error, the
    hash of a template of the bucket whose score is positive and the
    greatest of the bucket. *)
Theorem Find_outcomes (Conf : Type) (rt : RouteTable Conf) (u : url.URL) :
  (NO_URL_REGISTERED ≠ HOST_NOT_REGISTERED
   ∧ NO_URL_REGISTERED ≠ NO_MATCH_FOUND
   ∧ HOST_NOT_REGISTERED ≠ NO_MATCH_FOUND)
  ∧ (routes rt = ∅ → Find rt u = Some ("", Some NO_URL_REGISTERED))
  ∧ (routes rt ≠ ∅ →
     routes rt !! len_map (routeParams (ParseRoute u)) = None →
     Find rt u = Some ("", Some HOST_NOT_REGISTERED))
  ∧ (∀ bucket, routes rt ≠ ∅ →
     routes rt !! len_map (routeParams (ParseRoute u)) = Some bucket →
     Forall (fun t => RouteCompare t (ParseRoute u) = 0) bucket →
     Find rt u = Some ("", Some NO_MATCH_FOUND))
  ∧ (∀ bucket, routes rt ≠ ∅ →
     routes rt !! len_map (routeParams (ParseRoute u)) = Some bucket →
     Exists (fun t => RouteCompare t (ParseRoute u) ≠ 0) bucket →
     ∃ t, t ∈ bucket
          ∧ 0 < RouteCompare t (ParseRoute u)
          ∧ Forall (fun t' => RouteCompare t' (ParseRoute u) ≤ RouteCompare t (ParseRoute u))
                   bucket
          ∧ Find rt u = Some (hash t, None)).
Proof.
  split; [split_and!; done|]. split_and!.
  - intros Hempty. unfold Find. rewrite decide_True; [done|]. by apply len_map_zero.
  - intros Hne Hnone. unfold Find. rewrite decide_False by (by rewrite len_map_zero).
    by rewrite Hnone.
  - intros bucket _ Hb Hzero. rewrite (Find_bucket rt u bucket Hb).
    rewrite findLoop_stable; [done|].
    eapply Forall_impl; [exact Hzero|]. simpl. intros; lia.
  - intros bucket _ Hb Hsome. rewrite (Find_bucket rt u bucket Hb).
    destruct (findLoop_result (ParseRoute u) bucket)
      as [[_ Hzero]|(t & -> & Hin & Hpos & Hmax)].
    + apply Exists_exists in Hsome as (t & Hin & Hne).
      rewrite Forall_forall in Hzero. by destruct Hne; apply Hzero.
    + exists t. simpl. split_and!; [done..|]. by rewrite decide_False by lia.
Qed.

Lemma Find_outcomes_witness :
  Find (@DefaultRouteTable nat) PrepareURL = Some ("", Some NO_URL_REGISTERED)
  ∧ Find (Register DefaultRouteTable PrepareURLTemplate 1%nat)
         (pathQuery "/api/v1/users/ken/details/extra" "type=cache")
    = Some ("", Some HOST_NOT_REGISTERED)
  ∧ Find (Register DefaultRouteTable PrepareURLTemplate 1%nat)
         (pathQuery "/api/v1/users/ken/details" "format=JSON")
    = Some ("", Some NO_MATCH_FOUND)
  ∧ ∃ t, Find (Register DefaultRouteTable PrepareURLTemplate 1%nat) PrepareURL
         = Some (hash t, None).
Proof.
  split_and!.
  - apply (Find_outcomes nat). reflexivity.
  - apply (Find_outcomes nat).
    + vm_compute. discriminate.
    + vm_compute. reflexivity.
  - apply (proj1 (proj2 (proj2 (proj2 (Find_outcomes nat _ _))))
             [ParseRoute PrepareURLTemplate]).
    + vm_compute. discriminate.
    + vm_compute. reflexivity.
    + constructor; [|constructor]. vm_compute. reflexivity.
  - destruct (proj2 (proj2 (proj2 (proj2
                (Find_outcomes nat (Register DefaultRouteTable PrepareURLTemplate 1%nat)
                   PrepareURL))))
                [ParseRoute PrepareURLTemplate]) as (t & _ & _ & _ & Hfind).
    + vm_compute. discriminate.
    + vm_compute. reflexivity.
    + constructor. vm_compute. discriminate.
    + by exists t.
Defined.

(** ** The hash and repeated registration *)

Lemma len_string_pos (s : string) : len_string s > 0 ↔ s ≠ "".
Proof.
  unfold len_string. destruct s as [|c rest]; simpl String.length.
  - split; [lia|]. intros Hne. by destruct Hne.
  - split; [done|]. lia.
Qed.




Example CreateHash_test :
  CreateHash PrepareURLTemplate
  = "691393843ed1853c913855ef28acbe0029e1bf7ea7660c83e104b34083241e8d".
Proof. vm_compute. reflexivity. Qed.

(** ** The segments of a path *)

Lemma storeSegment_stored (m : gmap Z string) index segment :
  storeSegment m index segment
  = match storedSegment segment with
    | Some value => <[index := value]> m
    | None => m
    end.
Proof.
  unfold storeSegment, storedSegment.
  destruct (decide (segment = "")) as [->|Hne]; [done|].
  rewrite decide_False; [by destruct (strings.HasPrefix _ _)|].
  intros Hlen. pose proof (proj2 (len_string_pos segment) Hne). lia.
Qed.

Lemma storeSegment_lookup (m : gmap Z string) index segment pos :
  storeSegment m index segment !! pos
  = if decide (pos = index)
    then match storedSegment segment with Some value => Some value | None => m !! pos end
    else m !! pos.
Proof.
  rewrite storeSegment_stored. destruct (storedSegment segment) as [value|].
  - case_decide as Hpos; [subst; by rewrite lookup_insert_eq|by rewrite lookup_insert_ne].
  - by case_decide.
Qed.

(** A position holds what the piece of that index stores, and what it
    held before when there is no such piece or it stores nothing. *)
Lemma segmentsFrom_lookup pieces index (m : gmap Z string) pos :
  segmentsFrom index pieces m !! pos
  = match (if decide (index ≤ pos) then pieces !! Z.to_nat (pos - index) else None)
          ≫= storedSegment with
    | Some value => Some value
    | None => m !! pos
    end.
Proof.
  revert index m. induction pieces as [|segment rest IH]; intros index m; simpl.
  - by case_decide.
  - rewrite IH, storeSegment_lookup.
    destruct (decide (pos = index)) as [->|Hpos].
    + rewrite decide_False by lia. rewrite decide_True by lia.
      replace (Z.to_nat (index - index)) with 0%nat by lia. simpl.
      by destruct (storedSegment segment).
    + destruct (decide (index + 1 ≤ pos)) as [Hle|Hgt].
      * rewrite decide_True by lia.
        replace (Z.to_nat (pos - index)) with (S (Z.to_nat (pos - (index + 1)))) by lia.
        done.
      * by rewrite decide_False by lia.
Qed.

(** C9, as the code has it: a segment is stored under its index in the
    split of the path on the slash, and an empty piece stores nothing and
    still counts in the index.  The split of [/a//b] is ["", "a", "", "b"],
    so its segment map is "a" at position 1 and "b" at position 3, with
    nothing at positions 0 and 2. *)
Theorem parseSegments_positions :
  (∀ (path : string) (pos : Z),
     parseSegments path !! pos
     = (if decide (0 ≤ pos) then strings.Split path "/" !! Z.to_nat pos else None)
       ≫= storedSegment)
  ∧ strings.Split "/a//b" "/" = [""; "a"; ""; "b"]
  ∧ routeParams (ParseRoute (pathQuery "/a//b" "")) = {[ 1 := "a"; 3 := "b" ]}
  ∧ routeParams (ParseRoute (pathQuery "/a//b" "")) !! 0 = None
  ∧ routeParams (ParseRoute (pathQuery "/a//b" "")) !! 2 = None.
Proof.
  split_and!; [|vm_compute; reflexivity..].
  intros path pos. unfold parseSegments. rewrite segmentsFrom_lookup, lookup_empty.
  replace (pos - 0) with pos by lia. by destruct (_ ≫= storedSegment).
Qed.

(** The segment map of [/a//b] is not "a" at position 0 and "b" at
    position 2: position 0 is empty and position 1 holds "a". *)
Lemma parseSegments_positions_counterexample :
  ¬ (routeParams (ParseRoute (pathQuery "/a//b" "")) !! 0 = Some "a"
     ∧ routeParams (ParseRoute (pathQuery "/a//b" "")) !! 2 = Some "b"
     ∧ routeParams (ParseRoute (pathQuery "/a//b" "")) !! 1 = None).
Proof. vm_compute. intros (Hzero & _). discriminate Hzero. Qed.

(** ** The normalized query *)

Lemma string_gt_le (a b : string) : string_gt a b = true ↔ ¬ String.le a b.
Proof.
  unfold string_gt, String.le, String.leb.
  destruct (String.compare a b); cbn; intuition congruence.
Qed.

Lemma string_gt_false (a b : string) : string_gt a b = false ↔ String.le a b.
Proof.
  unfold string_gt, String.le, String.leb. by destruct (String.compare a b).
Qed.

#[local] Instance string_ge_trans : Transitive string_ge.
Proof. intros a b c Hab Hbc. unfold string_ge in *. by transitivity b. Qed.

#[local] Instance string_ge_antisymm : AntiSymm (=) string_ge.
Proof. intros a b Hab Hba. unfold string_ge in *. by apply (anti_symm String.le). Qed.

Lemma insertDescending_perm x l : insertDescending x l ≡ₚ x :: l.
Proof.
  induction l as [|y rest IH]; simpl; [done|].
  destruct (string_gt y x); [|done]. rewrite IH. apply Permutation_swap.
Qed.

Lemma sortDescending_perm l : sortDescending l ≡ₚ l.
Proof.
  induction l as [|x rest IH]; simpl; [done|]. by rewrite insertDescending_perm, IH.
Qed.

Lemma insertDescending_sorted x l :
  Sorted string_ge l → Sorted string_ge (insertDescending x l).
Proof.
  induction 1 as [|y rest Hrest IH Hhd]; simpl.
  - by repeat constructor.
  - destruct (string_gt y x) eqn:Hyx.
    + constructor; [done|].
      assert (string_ge y x) as Hge.
      { apply string_gt_le in Hyx. unfold string_ge.
        by destruct (total String.le x y). }
      destruct Hhd as [|z rest' Hz]; simpl.
      * by constructor.
      * destruct (string_gt z x); by constructor.
    + apply string_gt_false in Hyx. constructor; [by constructor|by constructor].
Qed.

Lemma sortDescending_sorted l : Sorted string_ge (sortDescending l).
Proof.
  induction l as [|x rest IH]; simpl; [constructor|by apply insertDescending_sorted].
Qed.

(** Whatever algorithm sorts the values, the outcome is [sortDescending]. *)
Lemma sortDescending_unique l sorted :
  sorted ≡ₚ l → Sorted string_ge sorted → sorted = sortDescending l.
Proof.
  intros Hperm Hsorted. apply (Sorted_unique string_ge); [done| |].
  - apply sortDescending_sorted.
  - by rewrite sortDescending_perm.
Qed.

Lemma sortDescending_order l l' : l ≡ₚ l' → sortDescending l = sortDescending l'.
Proof.
  intros Hperm. apply sortDescending_unique; [|apply sortDescending_sorted].
  by rewrite sortDescending_perm.
Qed.

(** The second loop of [ParseRoute], for any enumeration of a map. *)
Lemma storeQuery_fold (entries : list (string * list string)) acc key :
  NoDup entries.*1 →
  fold_left storeQuery entries acc !! key
  = match (list_to_map entries : gmap string (list string)) !! key with
    | Some values => Some (normalize values)
    | None => acc !! key
    end.
Proof.
  revert acc. induction entries as [|[k vs] rest IH]; intros acc Hnd; simpl; [done|].
  apply NoDup_cons in Hnd as [Hk Hnd]. rewrite IH by done.
  unfold storeQuery. simpl.
  destruct (decide (k = key)) as [->|Hne].
  - rewrite !lookup_insert_eq. by rewrite (not_elem_of_list_to_map_1 rest key Hk).
  - by rewrite !lookup_insert_ne by done.
Qed.

Lemma parseQuery_lookup (u : url.URL) key :
  parseQuery u !! key = normalize <$> url.Query u !! key.
Proof.
  unfold parseQuery. rewrite storeQuery_fold by apply NoDup_fst_map_to_list.
  rewrite list_to_map_to_list, lookup_empty. by destruct (url.Query u !! key).
Qed.

(** The order in which the runtime enumerates [url.Query()] does not
    change the query map of the route. *)
Lemma parseQuery_order (u : url.URL) entries :
  entries ≡ₚ map_to_list (url.Query u) →
  fold_left storeQuery entries ∅ = parseQuery u.
Proof.
  intros Hperm. apply map_eq. intros key. unfold parseQuery.
  pose proof (NoDup_fst_map_to_list (url.Query u)) as Hnd.
  rewrite !storeQuery_fold; [|done|by rewrite Hperm].
  rewrite (list_to_map_proper entries (map_to_list (url.Query u))); [done| |done].
  by rewrite Hperm.
Qed.

Lemma valuesOf_cons key pair rest :
  valuesOf key (pair :: rest)
  = match url.decodePair pair with
    | Some (k, v) => if decide (k = key) then v :: valuesOf key rest else valuesOf key rest
    | None => valuesOf key rest
    end.
Proof.
  unfold valuesOf. cbn [omap list_omap].
  destruct (url.decodePair pair) as [[k v]|]; [|done]. by case_decide.
Qed.

(** The loop of [parseQuery]: the values of a key are those of its pairs,
    in the order of the raw query, behind those the map held. *)
Lemma addPair_fold pairs (m : gmap string (list string)) key :
  fold_left url.addPair pairs m !! key
  = match valuesOf key pairs with
    | [] => m !! key
    | values => Some (default [] (m !! key) ++ values)%list
    end.
Proof.
  revert m. induction pairs as [|pair rest IH]; intros m; [done|].
  simpl fold_left. rewrite IH, valuesOf_cons. unfold url.addPair.
  destruct (url.decodePair pair) as [[k v]|]; [|done].
  destruct (decide (k = key)) as [->|Hne].
  - rewrite lookup_insert_eq. simpl.
    destruct (valuesOf key rest) as [|v' vs']; [done|]. by rewrite <- app_assoc.
  - by rewrite lookup_insert_ne.
Qed.

Lemma Query_lookup (u : url.URL) key :
  url.Query u !! key
  = match valuesOf key (strings.Split (url.RawQuery u) "&") with
    | [] => None
    | values => Some values
    end.
Proof.
  unfold url.Query. rewrite addPair_fold, lookup_empty. by destruct (valuesOf _ _).
Qed.

Lemma valuesOf_perm key pairs pairs' :
  pairs ≡ₚ pairs' → valuesOf key pairs ≡ₚ valuesOf key pairs'.
Proof. intros Hperm. unfold valuesOf. by rewrite Hperm. Qed.

Lemma Query_perm (u u' : url.URL) key :
  strings.Split (url.RawQuery u) "&" ≡ₚ strings.Split (url.RawQuery u') "&" →
  option_Forall2 (≡ₚ) (url.Query u !! key) (url.Query u' !! key).
Proof.
  intros Hperm. rewrite !Query_lookup.
  pose proof (valuesOf_perm key _ _ Hperm) as Hvalues.
  destruct (valuesOf key (strings.Split (url.RawQuery u) "&")) as [|v vs];
    destruct (valuesOf key (strings.Split (url.RawQuery u') "&")) as [|v' vs'].
  - constructor.
  - by apply Permutation_nil_cons in Hvalues.
  - symmetry in Hvalues. by apply Permutation_nil_cons in Hvalues.
  - by constructor.
Qed.

(** Queries that give every key the same values, in any order, have the
    same normalized map. *)
Lemma parseQuery_perm (u u' : url.URL) :
  (∀ key, option_Forall2 (≡ₚ) (url.Query u !! key) (url.Query u' !! key)) →
  parseQuery u = parseQuery u'.
Proof.
  intros Hsame. apply map_eq. intros key. rewrite !parseQuery_lookup.
  destruct (Hsame key) as [values values' Hperm|]; [|done].
  simpl. unfold normalize. by rewrite (sortDescending_order _ _ Hperm).
Qed.

(** C8: under each key of the query, [ParseRoute] stores the values of the
    key arranged in descending order and joined with commas; the raw
    queries [tag=b&tag=a] and [tag=a&tag=b] both give ["b,a"]; and URLs
    whose queries give every key the same values in any order (those
    whose raw queries are the same pairs in any order, for one) have equal
    query maps, so each passes the query loop of [RouteCompare] against
    the other. *)
Theorem ParseRoute_query_normalized :
  (∀ (u : url.URL) (key : string) (values : list string),
     url.Query u !! key = Some values →
     ∃ sorted, sorted ≡ₚ values ∧ Sorted string_ge sorted
               ∧ queryParams (ParseRoute u) !! key = Some (strings.Join sorted ","))
  ∧ (∀ (u : url.URL) (key : string),
       url.Query u !! key = None → queryParams (ParseRoute u) !! key = None)
  ∧ queryParams (ParseRoute (pathQuery "/p" "tag=b&tag=a")) = {[ "tag" := "b,a" ]}
  ∧ queryParams (ParseRoute (pathQuery "/p" "tag=a&tag=b")) = {[ "tag" := "b,a" ]}
  ∧ (∀ u u' : url.URL,
       (∀ key, option_Forall2 (≡ₚ) (url.Query u !! key) (url.Query u' !! key)) →
       queryParams (ParseRoute u) = queryParams (ParseRoute u')
       ∧ queryLoop (map_to_list (queryParams (ParseRoute u)))
                   (queryParams (ParseRoute u')) = true
       ∧ queryLoop (map_to_list (queryParams (ParseRoute u')))
                   (queryParams (ParseRoute u)) = true)
  ∧ (∀ u u' : url.URL,
       strings.Split (url.RawQuery u) "&" ≡ₚ strings.Split (url.RawQuery u') "&" →
       queryParams (ParseRoute u) = queryParams (ParseRoute u'))
  ∧ RouteCompare (ParseRoute (pathQuery "/p" "tag=b&tag=a"))
                 (ParseRoute (pathQuery "/p" "tag=a&tag=b")) = 2
  ∧ RouteCompare (ParseRoute (pathQuery "/p" "tag=a&tag=b"))
                 (ParseRoute (pathQuery "/p" "tag=b&tag=a")) = 2.
Proof.
  split_and!.
  - intros u key values Hvalues. exists (sortDescending values).
    split_and!; [apply sortDescending_perm|apply sortDescending_sorted|].
    cbn [ParseRoute queryParams]. by rewrite parseQuery_lookup, Hvalues.
  - intros u key Hnone. cbn [ParseRoute queryParams].
    by rewrite parseQuery_lookup, Hnone.
  - vm_compute. reflexivity.
  - vm_compute. reflexivity.
  - intros u u' Hsame. cbn [ParseRoute queryParams].
    rewrite (parseQuery_perm u u' Hsame).
    split_and!; [done|by apply queryLoop_subseteq..].
  - intros u u' Hperm. cbn [ParseRoute queryParams].
    apply parseQuery_perm. intros key. by apply Query_perm.
  - vm_compute. reflexivity.
  - vm_compute. reflexivity.
Qed.

Lemma ParseRoute_query_normalized_witness :
  queryParams (ParseRoute (pathQuery "/p" "tag=b&tag=a&x=1"))
  = queryParams (ParseRoute (pathQuery "/q" "x=1&tag=a&tag=b"))
  ∧ ∃ sorted, sorted ≡ₚ ["a"; "c"; "b"] ∧ Sorted string_ge sorted
      ∧ queryParams (ParseRoute (pathQuery "/p" "tag=a&tag=c&tag=b")) !! "tag"
        = Some (strings.Join sorted ",").
Proof.
  pose proof ParseRoute_query_normalized as (Hstore & _ & _ & _ & _ & Hraw & _).
  split.
  - refine (Hraw (pathQuery "/p" "tag=b&tag=a&x=1") (pathQuery "/q" "x=1&tag=a&tag=b") _).
    apply (bool_decide_unpack _). vm_compute. exact I.
  - refine (Hstore (pathQuery "/p" "tag=a&tag=c&tag=b") "tag" ["a"; "c"; "b"] _).
    vm_compute. reflexivity.
Defined.

(** * Further properties of the router *)

(** ** The score *)

Lemma pathWeight_length entries : Z.of_nat (length entries) ≤ pathWeight entries.
Proof.
  induction entries as [|kv rest IH]; simpl pathWeight; simpl length; [lia|].
  pose proof (slotWeight_pos kv.2). lia.
Qed.

(** X1: [RouteCompare] is positive exactly when the template has at least
    one segment, the two segment maps have the same size, every literal of
    the template equals the candidate's lookup at its position, and every
    entry of the template's query map is an entry of the candidate's. *)
Theorem RouteCompare_positive_iff (T C : Route) :
  0 < RouteCompare T C ↔
    routeParams T ≠ ∅
    ∧ len_map (routeParams T) = len_map (routeParams C)
    ∧ (∀ pos value, routeParams T !! pos = Some value → value ≠ "?" →
                    value = default "" (routeParams C !! pos))
    ∧ queryParams T ⊆ queryParams C.
Proof.
  split.
  - intros Hpos. destruct (RouteCompare_nonzero T C) as (Hlen & Hlit & Hqry & Heq); [lia|].
    split_and!; [|done..]. intros Hempty. rewrite Heq, Hempty, map_to_list_empty in Hpos.
    simpl in Hpos. lia.
  - intros (Hne & Hlen & Hlit & Hqry). rewrite RouteCompare_matched by done.
    apply pathWeight_pos. by rewrite map_to_list_empty_iff.
Qed.

(** X2: the score is never negative and at most twice the number of
    segments of the template; a score that is not 0 is at least that
    number. *)
Theorem RouteCompare_score_range (T C : Route) :
  0 ≤ RouteCompare T C ≤ 2 * len_map (routeParams T)
  ∧ (RouteCompare T C = 0 ∨ len_map (routeParams T) ≤ RouteCompare T C).
Proof.
  split; [split; [apply RouteCompare_nonneg|apply RouteCompare_bound]|].
  destruct (decide (RouteCompare T C = 0)) as [|Hne]; [by left|right].
  destruct (RouteCompare_nonzero T C Hne) as (_ & _ & _ & ->).
  unfold len_map. rewrite <- length_map_to_list. apply pathWeight_length.
Qed.

(** X3: the score does not depend on the order in which the two maps of
    the template are enumerated (Go leaves the order of a [range] over a
    map open). *)
Theorem RouteCompare_enumeration_order
    (segOrder : list (Z * string)) (qryOrder : list (string * string)) (T C : Route) :
  segOrder ≡ₚ map_to_list (routeParams T) →
  qryOrder ≡ₚ map_to_list (queryParams T) →
  RouteCompareIn segOrder qryOrder T C = RouteCompare T C.
Proof. apply RouteCompareIn_order. Qed.

Lemma RouteCompare_enumeration_order_witness :
  RouteCompareIn [(5, "details"); (1, "api"); (4, "?"); (2, "v1"); (3, "users")]
                 [("type", "cache")]
                 (ParseRoute PrepareURLTemplate) (ParseRoute PrepareURL)
  = RouteCompare (ParseRoute PrepareURLTemplate) (ParseRoute PrepareURL).
Proof.
  apply RouteCompare_enumeration_order.
  - apply (bool_decide_unpack _). vm_compute. exact I.
  - apply (bool_decide_unpack _). vm_compute. exact I.
Defined.

(** ** The segment map of a path *)

Lemma storedSegment_Some segment value :
  storedSegment segment = Some value →
  segment ≠ "" ∧ value ≠ "" ∧ strings.HasPrefix value ":" = false
  ∧ value = (if strings.HasPrefix segment ":" then "?" else segment).
Proof.
  unfold storedSegment. case_decide as Hne; [done|].
  destruct (strings.HasPrefix segment ":") eqn:Hcolon; intros [= <-]; by split_and!.
Qed.

Lemma storedSegment_None segment : storedSegment segment = None ↔ segment = "".
Proof.
  unfold storedSegment. case_decide; [done|].
  by destruct (strings.HasPrefix segment ":").
Qed.

Lemma segmentsFrom_size pieces index (m : gmap Z string) :
  (∀ k, is_Some (m !! k) → k < index) →
  size (segmentsFrom index pieces m)
  = (size m + length (filter (fun piece : string => piece ≠ "") pieces))%nat.
Proof.
  revert index m. induction pieces as [|piece rest IH]; intros index m Hbelow.
  - simpl. lia.
  - cbn [segmentsFrom]. rewrite IH.
    + rewrite storeSegment_stored, filter_cons.
      destruct (storedSegment piece) as [value|] eqn:Hst.
      * apply storedSegment_Some in Hst as (Hne & _). rewrite decide_True by done.
        rewrite map_size_insert_None; [simpl; lia|].
        apply eq_None_not_Some. intros Hsome. specialize (Hbelow index Hsome). lia.
      * apply storedSegment_None in Hst as ->. by rewrite decide_False by (by intros ?).
    + intros k. rewrite storeSegment_lookup. case_decide; [lia|].
      intros Hsome. specialize (Hbelow k Hsome). lia.
Qed.

Lemma parseSegments_lookup path pos :
  parseSegments path !! pos
  = (if decide (0 ≤ pos) then strings.Split path "/" !! Z.to_nat pos else None)
    ≫= storedSegment.
Proof.
  unfold parseSegments. rewrite segmentsFrom_lookup, lookup_empty.
  replace (pos - 0) with pos by lia. by destruct (_ ≫= storedSegment).
Qed.

Lemma parseSegments_lookup_Some path pos value :
  parseSegments path !! pos = Some value →
  0 ≤ pos ∧ ∃ piece, strings.Split path "/" !! Z.to_nat pos = Some piece
                     ∧ storedSegment piece = Some value.
Proof.
  rewrite parseSegments_lookup. case_decide; [|done].
  destruct (strings.Split path "/" !! Z.to_nat pos) as [piece|] eqn:Hpiece; [|done].
  simpl. intros Hst. split; [done|]. by exists piece.
Qed.

Lemma parseSegments_size path :
  size (parseSegments path)
  = length (filter (fun piece : string => piece ≠ "") (strings.Split path "/")).
Proof.
  unfold parseSegments. rewrite segmentsFrom_size; [by rewrite map_size_empty|].
  intros k. rewrite lookup_empty. by intros [? ?].
Qed.

(** X4: the number of segments of a route is the number of pieces of the
    split of its path that are not empty: slashes at the ends and doubled
    slashes add no segment. *)
Theorem ParseRoute_segment_count (u : url.URL) :
  len_map (routeParams (ParseRoute u))
  = Z.of_nat (length (filter (fun piece : string => piece ≠ "")
                             (strings.Split (url.Path u) "/"))).
Proof.
  unfold len_map. f_equal. cbn [ParseRoute routeParams]. apply parseSegments_size.
Qed.

(** X5: a segment is stored at an index of the split of the path, and is
    neither empty nor a string that starts with a colon. *)
Theorem ParseRoute_segment_values (u : url.URL) (pos : Z) (value : string) :
  routeParams (ParseRoute u) !! pos = Some value →
  0 ≤ pos < Z.of_nat (length (strings.Split (url.Path u) "/"))
  ∧ value ≠ ""
  ∧ strings.HasPrefix value ":" = false.
Proof.
  cbn [ParseRoute routeParams].
  intros (Hpos & piece & Hpiece & Hst)%parseSegments_lookup_Some.
  apply storedSegment_Some in Hst as (_ & Hne & Hcolon & _).
  apply lookup_lt_Some in Hpiece. split_and!; [done|lia|done..].
Qed.

Lemma ParseRoute_segment_values_witness :
  0 ≤ 4 < Z.of_nat (length (strings.Split (url.Path PrepareURLTemplate) "/"))
  ∧ "?" ≠ ""
  ∧ strings.HasPrefix "?" ":" = false.
Proof.
  apply (ParseRoute_segment_values PrepareURLTemplate 4 "?").
  vm_compute. reflexivity.
Defined.

Lemma Split_snoc (s : string) (sep : ascii) :
  strings.Split (s ++ String sep "") sep = (strings.Split s sep ++ [""])%list.
Proof.
  induction s as [|c rest IH]; simpl.
  - by rewrite decide_True.
  - rewrite IH. case_decide; [done|].
    pose proof (Split_not_nil rest sep). by destruct (strings.Split rest sep).
Qed.

(** X6: a slash at the end of the path leaves the segment map as it is; a
    slash put before the path moves every segment one position up. *)
Theorem parseSegments_slashes (path : string) :
  parseSegments (path ++ "/") = parseSegments path
  ∧ (∀ pos, parseSegments (String "/" path) !! (pos + 1) = parseSegments path !! pos)
  ∧ parseSegments (String "/" path) !! 0 = None.
Proof.
  split_and!.
  - apply map_eq. intros pos. rewrite !parseSegments_lookup, Split_snoc.
    case_decide; [|done].
    destruct (strings.Split path "/" !! Z.to_nat pos) as [piece|] eqn:Hpiece.
    + by rewrite (lookup_app_l_Some _ _ _ _ Hpiece).
    + apply lookup_ge_None in Hpiece. rewrite lookup_app_r by done.
      by destruct (Z.to_nat pos - length (strings.Split path "/"))%nat as [|[|n]].
  - intros pos. rewrite !parseSegments_lookup. cbn [strings.Split].
    rewrite (decide_True (P := "/"%char = "/"%char)) by done.
    destruct (decide (0 ≤ pos)) as [Hpos|Hneg].
    + rewrite decide_True by lia.
      by replace (Z.to_nat (pos + 1)) with (S (Z.to_nat pos)) by lia.
    + case_decide; [|done].
      by replace (pos + 1) with 0 by lia.
  - rewrite parseSegments_lookup. cbn [strings.Split].
    by rewrite (decide_True (P := "/"%char = "/"%char)) by done.
Qed.

(** ** Templates and the URLs they take *)

Lemma pieceAccepts_nonempty template candidate :
  pieceAccepts template candidate → template ≠ "" ↔ candidate ≠ "".
Proof.
  unfold pieceAccepts. destruct (strings.HasPrefix template ":") eqn:Hcolon.
  - intros Hne. split; [done|]. intros _ ->. done.
  - by intros <-.
Qed.

Lemma pieceAccepts_count templates candidates :
  Forall2 pieceAccepts templates candidates →
  length (filter (fun piece : string => piece ≠ "") templates)
  = length (filter (fun piece : string => piece ≠ "") candidates).
Proof.
  induction 1 as [|p c ps cs Hpc _ IH]; [done|].
  rewrite !filter_cons. apply pieceAccepts_nonempty in Hpc.
  destruct (decide (p ≠ "")) as [Hp|Hp].
  - rewrite decide_True by (by apply Hpc). simpl. by rewrite IH.
  - rewrite decide_False; [done|]. intros Hc. by apply Hp, Hpc.
Qed.

Lemma pieceAccepts_len (t c : url.URL) :
  Forall2 pieceAccepts (strings.Split (url.Path t) "/") (strings.Split (url.Path c) "/") →
  len_map (routeParams (ParseRoute t)) = len_map (routeParams (ParseRoute c)).
Proof.
  intros Hpieces. unfold len_map. f_equal. cbn [ParseRoute routeParams].
  rewrite !parseSegments_size. by apply pieceAccepts_count.
Qed.

Lemma pieceAccepts_rank (t c : url.URL) :
  Forall2 pieceAccepts (strings.Split (url.Path t) "/") (strings.Split (url.Path c) "/") →
  queryParams (ParseRoute t) ⊆ queryParams (ParseRoute c) →
  RouteCompare (ParseRoute t) (ParseRoute c)
  = pathWeight (map_to_list (routeParams (ParseRoute t))).
Proof.
  intros Hpieces Hqry. apply RouteCompare_matched; [by apply pieceAccepts_len| |done].
  cbn [ParseRoute routeParams]. intros pos value Hlook Hlit.
  apply parseSegments_lookup_Some in Hlook as (Hpos & piece & Hpiece & Hst).
  destruct (Forall2_lookup_l _ _ _ _ _ Hpieces Hpiece) as (piece' & Hpiece' & Hacc).
  rewrite parseSegments_lookup, decide_True, Hpiece' by done. simpl.
  pose proof Hst as (_ & _ & _ & Hvalue)%storedSegment_Some.
  unfold pieceAccepts in Hacc.
  destruct (strings.HasPrefix piece ":"); [done|]. subst piece' value.
  by rewrite Hst.
Qed.

(** X7: a template takes every URL whose path is the template's path with
    each parameter replaced by a piece that is not empty, and whose query
    map holds the template's: when the pieces of the two paths agree in
    this way, the score is the rank of the template, one per parameter and
    two per literal, and it is positive as soon as the template has a
    segment. *)
Theorem RouteCompare_accepts (t c : url.URL) :
  Forall2 pieceAccepts (strings.Split (url.Path t) "/") (strings.Split (url.Path c) "/") →
  queryParams (ParseRoute t) ⊆ queryParams (ParseRoute c) →
  routeParams (ParseRoute t) ≠ ∅ →
  0 < RouteCompare (ParseRoute t) (ParseRoute c)
  ∧ RouteCompare (ParseRoute t) (ParseRoute c)
    = sentinelSlots (routeParams (ParseRoute t))
      + 2 * literalSlots (routeParams (ParseRoute t)).
Proof.
  intros Hpieces Hqry Hne. rewrite (pieceAccepts_rank t c Hpieces Hqry).
  split; [|apply pathWeight_slots].
  apply pathWeight_pos. by rewrite map_to_list_empty_iff.
Qed.

Lemma RouteCompare_accepts_witness :
  0 < RouteCompare (ParseRoute PrepareURLTemplate) (ParseRoute PrepareURL)
  ∧ RouteCompare (ParseRoute PrepareURLTemplate) (ParseRoute PrepareURL)
    = sentinelSlots (routeParams (ParseRoute PrepareURLTemplate))
      + 2 * literalSlots (routeParams (ParseRoute PrepareURLTemplate)).
Proof.
  apply RouteCompare_accepts.
  - vm_compute. repeat constructor; discriminate.
  - apply map_subseteq_spec. intros key value.
    replace (queryParams (ParseRoute PrepareURLTemplate))
      with (queryParams (ParseRoute PrepareURL)) by (vm_compute; reflexivity).
    done.
  - vm_compute. discriminate.
Defined.

(** ** What [Find] reads of a URL *)

Lemma RouteCompare_fields (T C C' : Route) :
  routeParams C = routeParams C' → queryParams C = queryParams C' →
  RouteCompare T C = RouteCompare T C'.
Proof.
  intros Hseg Hqry. unfold RouteCompare, RouteCompareIn. by rewrite Hseg, Hqry.
Qed.

Lemma findLoop_fields (prt prt' : Route) bucket st :
  routeParams prt = routeParams prt' → queryParams prt = queryParams prt' →
  fold_left (findStep prt) bucket st = fold_left (findStep prt') bucket st.
Proof.
  intros Hseg Hqry. revert st. induction bucket as [|t rest IH]; intros st; [done|].
  simpl. rewrite IH. f_equal. unfold findStep.
  by rewrite (RouteCompare_fields t prt prt' Hseg Hqry).
Qed.

(** X8: [Find] reads a URL only through its segment map and its query
    map: two URLs that agree on both get the same answer from every table,
    whatever their hosts, their hashes and the text of their paths and
    queries are. *)
Theorem Find_reads_maps (Conf : Type) (rt : RouteTable Conf) (u u' : url.URL) :
  routeParams (ParseRoute u) = routeParams (ParseRoute u') →
  queryParams (ParseRoute u) = queryParams (ParseRoute u') →
  Find rt u = Find rt u'.
Proof.
  intros Hseg Hqry. unfold Find. case_decide; [done|]. rewrite Hseg.
  destruct (routes rt !! len_map (routeParams (ParseRoute u'))) as [bucket|]; [|done].
  by rewrite (findLoop_fields _ _ bucket (0, None) Hseg Hqry).
Qed.

Lemma Find_reads_maps_witness :
  Find (Register DefaultRouteTable PrepareURLTemplate 1%nat)
       (url.mkURL "www.abcdefg.com" "/api/v1/users/ken/details" "type=cache&tag=a&tag=b")
  = Find (Register DefaultRouteTable PrepareURLTemplate 1%nat)
         (url.mkURL "example.org" "/api/v1/users/ken/details/" "tag=b&type=cache&tag=a").
Proof.
  apply Find_reads_maps.
  - vm_compute. reflexivity.
  - vm_compute. reflexivity.
Defined.

(** A template scores 0 against a candidate that has no segment. *)
Lemma RouteCompare_no_segment (T C : Route) :
  routeParams C = ∅ → RouteCompare T C = 0.
Proof.
  intros Hempty. destruct (decide (RouteCompare T C = 0)) as [|Hne]; [done|].
  destruct (RouteCompare_nonzero T C Hne) as (Hlen & _ & _ & Heq).
  rewrite Hempty in Hlen. apply len_map_zero in Hlen.
  by rewrite Heq, Hlen, map_to_list_empty.
Qed.

(** X9: a URL whose path has no segment (the empty path, a path of
    slashes only) is never found, in any table, also when that very URL
    was registered: [Find] fails with one of its three errors. *)
Theorem Find_no_segment (Conf : Type) (rt : RouteTable Conf) (u : url.URL) :
  routeParams (ParseRoute u) = ∅ →
  Find rt u = Some ("", Some NO_URL_REGISTERED)
  ∨ Find rt u = Some ("", Some HOST_NOT_REGISTERED)
  ∨ Find rt u = Some ("", Some NO_MATCH_FOUND).
Proof.
  intros Hempty. unfold Find. case_decide; [by left|]. right.
  destruct (routes rt !! len_map (routeParams (ParseRoute u))) as [bucket|]; [|by left].
  right. rewrite findLoop_stable; [done|].
  apply Forall_forall. intros t _. simpl. by rewrite RouteCompare_no_segment.
Qed.

Lemma Find_no_segment_witness :
  Find (Register DefaultRouteTable (pathQuery "/" "") 1%nat) (pathQuery "/" "")
  = Some ("", Some NO_URL_REGISTERED)
  ∨ Find (Register DefaultRouteTable (pathQuery "/" "") 1%nat) (pathQuery "/" "")
    = Some ("", Some HOST_NOT_REGISTERED)
  ∨ Find (Register DefaultRouteTable (pathQuery "/" "") 1%nat) (pathQuery "/" "")
    = Some ("", Some NO_MATCH_FOUND).
Proof. apply Find_no_segment. vm_compute. reflexivity. Defined.

(** ** Tables built by registration *)

Section Registrations.

Context {Conf : Type}.
Implicit Types (rt : RouteTable Conf) (regs : list (url.URL * Conf)).

Lemma registerAll_snoc regs u conf :
  registerAll (regs ++ [(u, conf)]) = Register (registerAll regs) u conf.
Proof. unfold registerAll. by rewrite fold_left_app. Qed.

Lemma Register_configs_lookup rt u conf h :
  configs (Register rt u conf) !! h
  = match configs rt !! h with
    | Some old => Some old
    | None => if decide (CreateHash u = h) then Some conf else None
    end.
Proof.
  destruct (configs rt !! hash (ParseRoute u)) as [old|] eqn:Hold.
  - rewrite Register_duplicate by (by exists old).
    destruct (configs rt !! h) eqn:Hh; [done|].
    rewrite decide_False; [done|]. intros <-. cbn [ParseRoute hash] in Hold. congruence.
  - destruct (Register_fresh rt u conf Hold) as [-> _]. cbn [ParseRoute hash] in *.
    destruct (decide (CreateHash u = h)) as [<-|Hne].
    + by rewrite lookup_insert_eq, Hold.
    + rewrite lookup_insert_ne by done. by destruct (configs rt !! h).
Qed.

Lemma Register_configs_mono rt u conf h :
  is_Some (configs rt !! h) → is_Some (configs (Register rt u conf) !! h).
Proof. intros [old Hold]. rewrite Register_configs_lookup, Hold. by exists old. Qed.

Lemma Register_registeredBy regs rt u conf :
  registeredBy regs rt → registeredBy (regs ++ [(u, conf)]) (Register rt u conf).
Proof.
  intros Hinv n bucket Hbucket.
  assert (∀ n b, routes rt !! n = Some b →
            b ≠ [] ∧ NoDup (hash <$> b)
            ∧ ∀ r, r ∈ b →
                len_map (routeParams r) = n
                ∧ is_Some (configs (Register rt u conf) !! hash r)
                ∧ ∃ reg, reg ∈ (regs ++ [(u, conf)])%list ∧ r = ParseRoute reg.1) as Hold.
  { intros m b Hb. destruct (Hinv m b Hb) as (Hne & Hnd & Hmem).
    split_and!; [done..|]. intros r Hr.
    destruct (Hmem r Hr) as (Hlen & Hcfg & reg & Hreg & ->).
    split_and!; [done|by apply Register_configs_mono|].
    exists reg. split; [|done]. apply elem_of_app. by left. }
  destruct (configs rt !! hash (ParseRoute u)) as [old|] eqn:Hdup.
  - rewrite Register_duplicate in Hbucket by (by exists old). by apply Hold.
  - destruct (Register_fresh rt u conf Hdup) as [_ Hroutes]. cbn zeta in Hroutes.
    rewrite Hroutes in Hbucket.
    destruct (decide (n = len_map (routeParams (ParseRoute u)))) as [->|Hn].
    + rewrite lookup_insert_eq in Hbucket. apply (inj Some) in Hbucket. subst bucket.
      assert (∃ b, default [] (routes rt !! len_map (routeParams (ParseRoute u))) = b
                   ∧ NoDup (hash <$> b)
                   ∧ ∀ r, r ∈ b →
                       len_map (routeParams r) = len_map (routeParams (ParseRoute u))
                       ∧ is_Some (configs rt !! hash r)
                       ∧ is_Some (configs (Register rt u conf) !! hash r)
                       ∧ ∃ reg, reg ∈ (regs ++ [(u, conf)])%list ∧ r = ParseRoute reg.1)
        as (b & -> & Hnd & Hmem).
      { destruct (routes rt !! len_map (routeParams (ParseRoute u))) as [b|] eqn:Hb.
        - exists b. destruct (Hold _ b Hb) as (_ & Hnd & Hmem).
          destruct (Hinv _ b Hb) as (_ & _ & Hmem').
          split_and!; [done..|]. intros r Hr.
          destruct (Hmem r Hr) as (? & ? & ?). destruct (Hmem' r Hr) as (_ & ? & _).
          by split_and!.
        - exists []. split_and!; [done|constructor|]. by intros r Hr%elem_of_nil. }
      split_and!.
      * by destruct b.
      * rewrite fmap_app. apply NoDup_app. split_and!; [done| |by apply NoDup_singleton].
        intros h (r & -> & Hr)%list_elem_of_fmap Hnew%list_elem_of_singleton.
        destruct (Hmem r Hr) as (_ & [c Hc] & _). congruence.
      * intros r [Hr| ->%list_elem_of_singleton]%elem_of_app.
        -- destruct (Hmem r Hr) as (? & _ & ? & ?). by split_and!.
        -- split_and!; [done| |].
           ++ rewrite Register_configs_lookup. cbn [ParseRoute hash] in *.
              rewrite Hdup, decide_True by done. by exists conf.
           ++ exists (u, conf). split; [|done]. apply elem_of_app. right. by left.
    + rewrite lookup_insert_ne in Hbucket by done. by apply Hold.
Qed.

Lemma registerAll_registeredBy regs : registeredBy regs (registerAll regs).
Proof.
  induction regs as [|[u conf] regs IH] using rev_ind.
  - intros n bucket Hbucket. cbn [registerAll fold_left DefaultRouteTable routes] in Hbucket.
    by rewrite lookup_empty in Hbucket.
  - rewrite registerAll_snoc. by apply Register_registeredBy.
Qed.

End Registrations.

(** X10: in a table built by registrations from the empty table, no
    bucket is empty, no two routes of a bucket have the same hash, and
    every route of the bucket of [n] has [n] segments, comes from one of
    the registered URLs and has a configuration under its hash. *)
Theorem registerAll_buckets (Conf : Type) (regs : list (url.URL * Conf))
    (n : Z) (bucket : list Route) :
  routes (registerAll regs) !! n = Some bucket →
  bucket ≠ []
  ∧ NoDup (hash <$> bucket)
  ∧ ∀ r, r ∈ bucket →
      len_map (routeParams r) = n
      ∧ is_Some (GetConfig (registerAll regs) (hash r))
      ∧ ∃ reg, reg ∈ regs ∧ r = ParseRoute reg.1.
Proof. apply registerAll_registeredBy. Qed.

Lemma registerAll_buckets_witness :
  [ParseRoute PrepareURLTemplate; ParseRoute PrepareURL] ≠ []
  ∧ NoDup (hash <$> [ParseRoute PrepareURLTemplate; ParseRoute PrepareURL])
  ∧ ∀ r, r ∈ [ParseRoute PrepareURLTemplate; ParseRoute PrepareURL] →
      len_map (routeParams r) = 5
      ∧ is_Some (GetConfig (registerAll [(PrepareURLTemplate, 1%nat); (PrepareURL, 2%nat);
                                         (PrepareURLTemplate, 3%nat)]) (hash r))
      ∧ ∃ reg, reg ∈ [(PrepareURLTemplate, 1%nat); (PrepareURL, 2%nat);
                      (PrepareURLTemplate, 3%nat)]
               ∧ r = ParseRoute reg.1.
Proof.
  apply (registerAll_buckets nat
           [(PrepareURLTemplate, 1%nat); (PrepareURL, 2%nat); (PrepareURLTemplate, 3%nat)]
           5 [ParseRoute PrepareURLTemplate; ParseRoute PrepareURL]).
  vm_compute. reflexivity.
Defined.

Lemma registerFrom_configs {Conf : Type} (regs : list (url.URL * Conf))
    (rt : RouteTable Conf) (h : string) :
  configs (fold_left (fun rt reg => Register rt reg.1 reg.2) regs rt) !! h
  = match configs rt !! h with
    | Some old => Some old
    | None => firstRegistered h regs
    end.
Proof.
  revert rt. induction regs as [|[u conf] rest IH]; intros rt; simpl.
  - by destruct (configs rt !! h).
  - rewrite IH, Register_configs_lookup. destruct (configs rt !! h); [done|].
    by case_decide.
Qed.

(** X11: after any sequence of registrations, [GetConfig] of a hash is the
    configuration of the first registration whose URL has this hash, and
    nil when there is none: later registrations of the same hash never
    replace it, and no registration removes one. *)
Theorem GetConfig_first_registration (Conf : Type) (regs : list (url.URL * Conf))
    (h : string) :
  GetConfig (registerAll regs) h = firstRegistered h regs.
Proof.
  unfold GetConfig, registerAll. rewrite registerFrom_configs.
  cbn [DefaultRouteTable configs]. by rewrite lookup_empty.
Qed.

Lemma Find_success {Conf : Type} (rt : RouteTable Conf) (u : url.URL) (h : string) :
  Find rt u = Some (h, None) →
  ∃ bucket t,
    routes rt !! len_map (routeParams (ParseRoute u)) = Some bucket
    ∧ t ∈ bucket ∧ h = hash t
    ∧ 0 < RouteCompare t (ParseRoute u)
    ∧ Forall (fun t' => RouteCompare t' (ParseRoute u) ≤ RouteCompare t (ParseRoute u)) bucket
    ∧ fold_left (findStep (ParseRoute u)) bucket (0, None)
      = (RouteCompare t (ParseRoute u), Some t).
Proof.
  unfold Find. case_decide; [done|].
  destruct (routes rt !! len_map (routeParams (ParseRoute u))) as [bucket|]; [|done].
  destruct (findLoop_result (ParseRoute u) bucket)
    as [[-> _]|(t & Hres & Hin & Hpos & Hmax)]; [done|].
  rewrite Hres. rewrite decide_False by lia. intros [= <-]. by exists bucket, t.
Qed.

(** X12: in a table built by registrations, a hash that [Find] returns
    without error is the hash of one of the registered URLs, whose
    template scores positively against the candidate, and [GetConfig]
    has a configuration for it. *)
Theorem Find_returns_registered (Conf : Type) (regs : list (url.URL * Conf))
    (u : url.URL) (h : string) :
  Find (registerAll regs) u = Some (h, None) →
  ∃ reg conf,
    reg ∈ regs ∧ h = CreateHash reg.1
    ∧ 0 < RouteCompare (ParseRoute reg.1) (ParseRoute u)
    ∧ GetConfig (registerAll regs) h = Some conf.
Proof.
  intros (bucket & t & Hbucket & Hin & -> & Hpos & _ & _)%Find_success.
  destruct (registerAll_registeredBy regs _ _ Hbucket) as (_ & _ & Hmem).
  destruct (Hmem t Hin) as (_ & [conf Hconf] & reg & Hreg & ->).
  by exists reg, conf.
Qed.

Lemma Find_returns_registered_witness :
  ∃ reg conf,
    reg ∈ [(pathQuery "/a/:x" "", 1%nat); (pathQuery "/a/b" "", 2%nat)]
    ∧ CreateHash (pathQuery "/a/b" "") = CreateHash reg.1
    ∧ 0 < RouteCompare (ParseRoute reg.1) (ParseRoute (pathQuery "/a/b" "k=v"))
    ∧ GetConfig (registerAll [(pathQuery "/a/:x" "", 1%nat); (pathQuery "/a/b" "", 2%nat)])
                (CreateHash (pathQuery "/a/b" ""))
      = Some conf.
Proof.
  apply (Find_returns_registered nat
           [(pathQuery "/a/:x" "", 1%nat); (pathQuery "/a/b" "", 2%nat)]
           (pathQuery "/a/b" "k=v")).
  vm_compute. reflexivity.
Defined.

Lemma findStep_cases (prt : Route) (st : Z * option Route) (t : Route) :
  findStep prt st t
  = if decide (RouteCompare t prt ≠ 0 ∧ RouteCompare t prt > st.1)
    then (RouteCompare t prt, Some t) else st.
Proof. unfold findStep. repeat case_decide; try done; tauto. Qed.

(** X13: registering one more URL changes a successful answer of [Find]
    only when the hash of the new URL was not registered and its template
    scores strictly higher than every template of the candidate's bucket;
    the answer is then the hash of the new URL. *)
Theorem Find_after_Register (Conf : Type) (rt : RouteTable Conf)
    (v : url.URL) (conf : Conf) (u : url.URL) (h : string) :
  Find rt u = Some (h, None) →
  Find (Register rt v conf) u = Some (h, None)
  ∨ (Find (Register rt v conf) u = Some (hash (ParseRoute v), None)
     ∧ configs rt !! hash (ParseRoute v) = None
     ∧ ∀ bucket t,
         routes rt !! len_map (routeParams (ParseRoute u)) = Some bucket →
         t ∈ bucket →
         RouteCompare t (ParseRoute u) < RouteCompare (ParseRoute v) (ParseRoute u)).
Proof.
  intros Hfind.
  destruct (configs rt !! hash (ParseRoute v)) as [old|] eqn:Hdup.
  { left. by rewrite Register_duplicate by (by exists old). }
  pose proof Hfind as (bucket & best & Hbucket & Hin & -> & Hpos & Hmax & Hres)%Find_success.
  destruct (Register_fresh rt v conf Hdup) as [_ Hroutes]. cbn zeta in Hroutes.
  destruct (decide (len_map (routeParams (ParseRoute u))
                    = len_map (routeParams (ParseRoute v)))) as [Hn|Hn].
  - assert (routes (Register rt v conf) !! len_map (routeParams (ParseRoute u))
            = Some (bucket ++ [ParseRoute v])%list) as Hnew.
    { rewrite Hroutes, <- Hn, lookup_insert_eq. by rewrite Hbucket. }
    rewrite (Find_bucket _ u _ Hnew), fold_left_app, Hres. cbn [fold_left].
    rewrite findStep_cases. cbn [fst].
    destruct (decide (RouteCompare (ParseRoute v) (ParseRoute u) ≠ 0
                      ∧ RouteCompare (ParseRoute v) (ParseRoute u)
                        > RouteCompare best (ParseRoute u))) as [[Hne Hgt]|Hno].
    + right. cbn [fst snd]. rewrite decide_False by done. split_and!; [done..|].
      intros bucket' t' Hb' Hin'. rewrite Hbucket in Hb'. apply (inj Some) in Hb'.
      subst bucket'. rewrite Forall_forall in Hmax. specialize (Hmax t' Hin').
      simpl in Hmax. lia.
    + left. cbn [fst snd]. by rewrite decide_False by lia.
  - left. rewrite <- Hfind. unfold Find.
    assert (len_map (routes rt) ≠ 0) as Hrt.
    { rewrite len_map_zero. intros Hempty. by rewrite Hempty, lookup_empty in Hbucket. }
    assert (len_map (routes (Register rt v conf)) ≠ 0) as Hrt'.
    { rewrite len_map_zero, Hroutes. apply insert_non_empty. }
    rewrite !decide_False by done.
    by rewrite Hroutes, lookup_insert_ne by done.
Qed.

Lemma Find_after_Register_witness :
  Find (Register (Register DefaultRouteTable (pathQuery "/a/:x" "") 1%nat)
                 (pathQuery "/a/b" "") 2%nat)
       (pathQuery "/a/b" "")
  = Some (CreateHash (pathQuery "/a/:x" ""), None)
  ∨ (Find (Register (Register DefaultRouteTable (pathQuery "/a/:x" "") 1%nat)
                    (pathQuery "/a/b" "") 2%nat)
          (pathQuery "/a/b" "")
     = Some (hash (ParseRoute (pathQuery "/a/b" "")), None)
     ∧ configs (Register DefaultRouteTable (pathQuery "/a/:x" "") 1%nat)
         !! hash (ParseRoute (pathQuery "/a/b" "")) = None
     ∧ ∀ bucket t,
         routes (Register DefaultRouteTable (pathQuery "/a/:x" "") 1%nat)
           !! len_map (routeParams (ParseRoute (pathQuery "/a/b" ""))) = Some bucket →
         t ∈ bucket →
         RouteCompare t (ParseRoute (pathQuery "/a/b" ""))
         < RouteCompare (ParseRoute (pathQuery "/a/b" "")) (ParseRoute (pathQuery "/a/b" ""))).
Proof.
  apply (Find_after_Register nat (Register DefaultRouteTable (pathQuery "/a/:x" "") 1%nat)
           (pathQuery "/a/b" "") 2%nat (pathQuery "/a/b" "")
           (CreateHash (pathQuery "/a/:x" ""))).
  vm_compute. reflexivity.
Defined.

(** X14: one registration in the empty table, then a lookup: when the
    template has a segment and takes the URL (each parameter against a
    piece that is not empty, each other piece against itself, the
    template's query map within the URL's), [Find] returns the hash of the
    registered URL with no error, and [GetConfig] of this hash is the
    registered configuration. *)
Theorem Register_then_Find (Conf : Type) (t : url.URL) (conf : Conf) (c : url.URL) :
  Forall2 pieceAccepts (strings.Split (url.Path t) "/") (strings.Split (url.Path c) "/") →
  queryParams (ParseRoute t) ⊆ queryParams (ParseRoute c) →
  routeParams (ParseRoute t) ≠ ∅ →
  Find (Register DefaultRouteTable t conf) c = Some (CreateHash t, None)
  ∧ GetConfig (Register DefaultRouteTable t conf) (CreateHash t) = Some conf.
Proof.
  intros Hpieces Hqry Hne.
  assert (configs (@DefaultRouteTable Conf) !! hash (ParseRoute t) = None) as Hnew
    by apply lookup_empty.
  destruct (Register_fresh DefaultRouteTable t conf Hnew) as [Hconfigs Hroutes].
  cbn zeta in Hconfigs, Hroutes. split.
  - assert (routes (Register DefaultRouteTable t conf)
              !! len_map (routeParams (ParseRoute c)) = Some [ParseRoute t]) as Hbucket.
    { rewrite Hroutes, <- (pieceAccepts_len t c Hpieces), lookup_insert_eq.
      cbn [DefaultRouteTable routes]. by rewrite lookup_empty. }
    rewrite (Find_bucket _ c _ Hbucket). cbn [fold_left].
    rewrite findStep_cases. cbn [fst].
    assert (0 < RouteCompare (ParseRoute t) (ParseRoute c)) as Hpos.
    { rewrite (pieceAccepts_rank t c Hpieces Hqry).
      apply pathWeight_pos. by rewrite map_to_list_empty_iff. }
    rewrite (decide_True (P := _ ∧ _)) by (split; lia). cbn [fst snd].
    by rewrite decide_False by lia.
  - unfold GetConfig. rewrite Hconfigs. apply lookup_insert_eq.
Qed.

Lemma Register_then_Find_witness :
  Find (Register DefaultRouteTable PrepareURLTemplate 1%nat) PrepareURL
  = Some (CreateHash PrepareURLTemplate, None)
  ∧ GetConfig (Register DefaultRouteTable PrepareURLTemplate 1%nat)
              (CreateHash PrepareURLTemplate) = Some 1%nat.
Proof.
  apply Register_then_Find.
  - vm_compute. repeat constructor; discriminate.
  - apply map_subseteq_spec. intros key value.
    replace (queryParams (ParseRoute PrepareURLTemplate))
      with (queryParams (ParseRoute PrepareURL)) by (vm_compute; reflexivity).
    done.
  - vm_compute. discriminate.
Defined.

(** X16: the query map of a route does not depend on the order in which
    the keys of [url.Query()] are enumerated. *)
Theorem ParseRoute_query_enumeration_order (u : url.URL)
    (entries : list (string * list string)) :
  entries ≡ₚ map_to_list (url.Query u) →
  fold_left storeQuery entries ∅ = queryParams (ParseRoute u).
Proof. apply parseQuery_order. Qed.

Lemma ParseRoute_query_enumeration_order_witness :
  fold_left storeQuery [("b", ["2"]); ("a", ["1"; "3"])] ∅
  = queryParams (ParseRoute (pathQuery "/p" "a=1&b=2&a=3"))
  ∧ fold_left storeQuery [("a", ["1"; "3"]); ("b", ["2"])] ∅
    = queryParams (ParseRoute (pathQuery "/p" "a=1&b=2&a=3")).
Proof.
  split; apply ParseRoute_query_enumeration_order;
    apply (bool_decide_unpack _); vm_compute; exact I.
Defined.

(** ** The shape of a hash *)

Lemma bytesBE_length n x : length (sha256.bytesBE n x) = n.
Proof.
  revert x. induction n as [|n IH]; intros x; simpl; [done|].
  rewrite length_app, IH. simpl. lia.
Qed.

Lemma bytesBE_bytes n x : Forall isByte (sha256.bytesBE n x).
Proof.
  revert x. induction n as [|n IH]; intros x; simpl; [constructor|].
  apply Forall_app. split; [apply IH|]. apply Forall_singleton.
  unfold isByte. change 0xFF with (Z.ones 8). rewrite Z.land_ones by lia.
  change (2 ^ 8) with 256. apply Z.mod_pos_bound. lia.
Qed.

Lemma round_length st kw : length (sha256.round st kw) = length st.
Proof.
  unfold sha256.round.
  do 9 (destruct st as [|? st]; [done|]). done.
Qed.

Lemma rounds_length kws st : length (fold_left sha256.round kws st) = length st.
Proof.
  revert st. induction kws as [|kw rest IH]; intros st; simpl; [done|].
  by rewrite IH, round_length.
Qed.

Lemma block_length hs blk : length (sha256.block hs blk) = length hs.
Proof.
  unfold sha256.block. rewrite length_zip_with, rounds_length. lia.
Qed.

Lemma blocks_length blks hs : length (fold_left sha256.block blks hs) = length hs.
Proof.
  revert hs. induction blks as [|blk rest IH]; intros hs; simpl; [done|].
  by rewrite IH, block_length.
Qed.

Lemma words_bytes_length (ws : list Z) :
  length (ws ≫= sha256.bytesBE 4) = (4 * length ws)%nat.
Proof.
  induction ws as [|w rest IH]; [done|].
  rewrite bind_cons, length_app, bytesBE_length, IH. simpl. lia.
Qed.

Lemma Sum256_length msg : length (sha256.Sum256 msg) = 32%nat.
Proof.
  unfold sha256.Sum256. cbn zeta. by rewrite words_bytes_length, blocks_length.
Qed.

Lemma Sum256_bytes msg : Forall isByte (sha256.Sum256 msg).
Proof.
  unfold sha256.Sum256. cbn zeta. apply Forall_bind, Forall_forall.
  intros w _. apply bytesBE_bytes.
Qed.

Lemma digit_hex (n : Z) : 0 ≤ n < 16 → isLowerHex (hex.digit n).
Proof.
  intros Hn.
  assert (Forall (fun k : nat => isLowerHex (hex.digit (Z.of_nat k))) (seq 0 16)) as Hall.
  { apply (bool_decide_unpack _). vm_compute. exact I. }
  rewrite Forall_forall in Hall. specialize (Hall (Z.to_nat n)).
  rewrite Z2Nat.id in Hall by lia. apply Hall, elem_of_seq. lia.
Qed.

Lemma EncodeToString_length src :
  String.length (hex.EncodeToString src) = (2 * length src)%nat.
Proof. induction src as [|b rest IH]; simpl; [done|]. rewrite IH. lia. Qed.

Lemma EncodeToString_hex src :
  Forall isByte src → Forall isLowerHex (list_ascii_of_string (hex.EncodeToString src)).
Proof.
  induction 1 as [|b rest Hb _ IH]; simpl; [constructor|].
  unfold isByte in Hb. apply Forall_cons. split; [|apply Forall_cons; split; [|done]].
  - apply digit_hex. rewrite Z.shiftr_div_pow2 by lia. change (2 ^ 4) with 16.
    split; [apply Z.div_pos; lia|apply Z.div_lt_upper_bound; lia].
  - apply digit_hex. change 0x0F with (Z.ones 4). rewrite Z.land_ones by lia.
    change (2 ^ 4) with 16. apply Z.mod_pos_bound. lia.
Qed.

(** X15: the hash of every URL is a string of 64 characters, each a
    lower-case hexadecimal digit. *)
Theorem CreateHash_shape (u : url.URL) :
  String.length (CreateHash u) = 64%nat
  ∧ Forall isLowerHex (list_ascii_of_string (CreateHash u)).
Proof.
  unfold CreateHash. split.
  - by rewrite EncodeToString_length, Sum256_length.
  - apply EncodeToString_hex, Sum256_bytes.
Qed.

(** ** How registrations compose *)

Section RegisterCompose.

Context {Conf : Type}.
Implicit Types (rt : RouteTable Conf) (u v : url.URL) (conf : Conf).

Lemma RouteTable_eq rt rt' :
  routes rt = routes rt' → configs rt = configs rt' → rt = rt'.
Proof. destruct rt, rt'. simpl. by intros -> ->. Qed.

Lemma Register_routes rt u conf :
  routes (Register rt u conf)
  = match configs rt !! CreateHash u with
    | Some _ => routes rt
    | None =>
        <[len_map (routeParams (ParseRoute u)) :=
            (default [] (routes rt !! len_map (routeParams (ParseRoute u)))
             ++ [ParseRoute u])%list]> (routes rt)
    end.
Proof.
  destruct (configs rt !! CreateHash u) as [old|] eqn:Hold.
  - by rewrite Register_duplicate by (by exists old).
  - by destruct (Register_fresh rt u conf Hold) as [_ ->].
Qed.

Lemma Register_configs rt u conf :
  configs (Register rt u conf)
  = match configs rt !! CreateHash u with
    | Some _ => configs rt
    | None => <[CreateHash u := conf]> (configs rt)
    end.
Proof.
  destruct (configs rt !! CreateHash u) as [old|] eqn:Hold.
  - by rewrite Register_duplicate by (by exists old).
  - by destruct (Register_fresh rt u conf Hold) as [-> _].
Qed.

End RegisterCompose.

(** X17: a registration only adds: every configuration of the table stays
    under its hash, and every bucket keeps its routes, in their order, at
    its front. *)
Theorem Register_extends (Conf : Type) (rt : RouteTable Conf) (u : url.URL) (conf : Conf) :
  configs rt ⊆ configs (Register rt u conf)
  ∧ ∀ n, default [] (routes rt !! n) `prefix_of` default [] (routes (Register rt u conf) !! n).
Proof.
  rewrite Register_configs, Register_routes.
  destruct (configs rt !! CreateHash u) as [old|] eqn:Hold; [done|]. split.
  - by apply insert_subseteq.
  - intros n. destruct (decide (n = len_map (routeParams (ParseRoute u)))) as [->|Hn].
    + rewrite lookup_insert_eq. simpl. by apply prefix_app_r.
    + by rewrite lookup_insert_ne.
Qed.

(** X18: two registrations of URLs with different hashes and different
    segment counts can be swapped: the table is the same.  (Within one
    bucket the order stays visible: it decides ties.) *)
Theorem Register_commute (Conf : Type) (rt : RouteTable Conf)
    (u v : url.URL) (c d : Conf) :
  CreateHash u ≠ CreateHash v →
  len_map (routeParams (ParseRoute u)) ≠ len_map (routeParams (ParseRoute v)) →
  Register (Register rt u c) v d = Register (Register rt v d) u c.
Proof.
  intros Hhash Hlen. apply RouteTable_eq.
  - rewrite !Register_routes, !Register_configs_lookup.
    destruct (configs rt !! CreateHash u) as [cu|] eqn:Hu;
      destruct (configs rt !! CreateHash v) as [cv|] eqn:Hv;
      rewrite ?decide_False by done; rewrite ?Register_routes, ?Hu, ?Hv; try done.
    rewrite !lookup_insert_ne by done. by apply insert_insert_ne.
  - rewrite !Register_configs.
    destruct (configs rt !! CreateHash u) as [cu|] eqn:Hu;
      destruct (configs rt !! CreateHash v) as [cv|] eqn:Hv;
      rewrite ?lookup_insert_ne by done; rewrite ?Hu, ?Hv; try done.
    by apply insert_insert_ne.
Qed.

Lemma Register_commute_witness :
  Register (Register DefaultRouteTable (pathQuery "/a/:x" "") 1%nat)
           (pathQuery "/a/:x/c" "") 2%nat
  = Register (Register DefaultRouteTable (pathQuery "/a/:x/c" "") 2%nat)
             (pathQuery "/a/:x" "") 1%nat.
Proof.
  apply Register_commute.
  - vm_compute. discriminate.
  - vm_compute. discriminate.
Defined.
